(** * Time Matrix Game (script.js): a shallow embedding and its properties

    The development follows the bilingual version of the script (the one
    with [currentLanguage], [translations] and [shuffledActivities]).

    - [Runtime]: the part of the JavaScript runtime the script relies on:
      a store of arrays (so that copying and in-place swapping can be told
      apart) and the stream of values handed out by [Math.random].
    - [Engine]: the game state (the script's top-level [let] variables, the
      DOM attributes it writes, the pending [setTimeout] callbacks) and the
      script's functions as state transformers.
    - the properties, one section per topic.

    Numbers: [score] is a [Z], indices and lengths are [nat]. The
    percentage [score / totalActivities * 100] is computed in double
    precision, as in the script. A value of [Math.random] is a rational in
    [0, 1), and its product with [i + 1] is exact: of that product only the
    integer part is used, which lies in [0, i] either way. *)

From Stdlib Require Import ZArith QArith Qround Lia.
From Stdlib Require Import Floats.SpecFloat.
From stdpp Require Import gmap strings list fin_maps.

Local Open Scope Z_scope.
Local Open Scope nat_scope.

(* ====================================================================== *)
(** ** The runtime: arrays in a store, and [Math.random]                  *)
(* ====================================================================== *)

Module Runtime.

(** An array reference: JavaScript arrays are objects, and a variable holds
    a reference to one. *)
Definition loc := nat.

(** What [Math.random] promises: a value in [0, 1). *)
Definition unit_interval (r : Q) : Prop := (0 <= r)%Q /\ (r < 1)%Q.

Section Store.
Context {A : Type}.

(** [heap] maps every allocated array to its contents; [random_calls]
    counts the calls of [Math.random] made so far. *)
Record t := mk {
  heap : gmap loc (list A);
  random_calls : nat
}.

(** A computation on the runtime. [None] means that the computation left
    the modelled fragment: an array element was read or written outside
    the bounds of its array (where JavaScript answers [undefined], or
    grows the array). *)
Definition R (X : Type) : Type := t -> option (X * t).

Definition ret {X} (x : X) : R X := fun rt => Some (x, rt).

Definition bind {X Y} (c : R X) (k : X -> R Y) : R Y :=
  fun rt =>
    match c rt with
    | Some (x, rt') => k x rt'
    | None => None
    end.

(** [[...elems]] and array literals: a new array with the given contents. *)
Definition alloc (elems : list A) : R loc :=
  fun rt =>
    let p := fresh (dom (heap rt)) in
    Some (p, mk (<[p := elems]> (heap rt)) (random_calls rt)).

(** The contents of an array (what the spread [...array] enumerates). *)
Definition contents (p : loc) : R (list A) :=
  fun rt =>
    match heap rt !! p with
    | Some l => Some (l, rt)
    | None => None
    end.

(** [array.length] *)
Definition array_length (p : loc) : R nat :=
  fun rt =>
    match heap rt !! p with
    | Some l => Some (length l, rt)
    | None => None
    end.

(** [array[i]], for [i] within bounds *)
Definition array_get (p : loc) (i : nat) : R A :=
  fun rt =>
    match heap rt !! p with
    | Some l =>
        match l !! i with
        | Some x => Some (x, rt)
        | None => None
        end
    | None => None
    end.

(** [array[i] = x], for [i] within bounds: the array is updated in place. *)
Definition array_set (p : loc) (i : nat) (x : A) : R unit :=
  fun rt =>
    match heap rt !! p with
    | Some l =>
        if decide (i < length l)
        then Some (tt, mk (<[p := <[i := x]> l]> (heap rt)) (random_calls rt))
        else None
    | None => None
    end.

End Store.

Arguments t : clear implicits.
Arguments R : clear implicits.

Module Notations.
Notation "'let*' x ':=' c 'in' k" := (bind c (fun x => k))
  (at level 10, x name, c at level 100, k at level 200).
End Notations.
Import Notations.

Section Shuffle.
Context {A : Type}.

(** [random k] is the value the [k]-th call of [Math.random] returns. *)
Variable random : nat -> Q.

(** [Math.random()] *)
Definition Math_random : R A Q :=
  fun rt => Some (random (random_calls rt), mk (heap rt) (S (random_calls rt))).

(** [Math.floor(x)] for a non-negative [x], as an array index. The product
    it is applied to is computed exactly here and in floating point in the
    script; for a factor in [0, 1) both stay below [i + 1]. *)
Definition Math_floor (x : Q) : nat := Z.to_nat (Qfloor x).

(** The loop of [shuffleArray], from [i] down to 1:
      const j = Math.floor(Math.random() * (i + 1));
      [shuffled[i], shuffled[j]] = [shuffled[j], shuffled[i]];
    The right-hand side is evaluated first, then [shuffled[i]] and
    [shuffled[j]] are assigned, in this order. *)
Fixpoint shuffle_loop (shuffled : loc) (i : nat) : R A unit :=
  match i with
  | O => ret tt
  | S i' =>
      let* r := Math_random in
      let j := Math_floor (r * inject_Z (Z.of_nat (i + 1))) in
      let* xj := array_get shuffled j in
      let* xi := array_get shuffled i in
      let* _ := array_set shuffled i xj in
      let* _ := array_set shuffled j xi in
      shuffle_loop shuffled i'
  end.

(** function shuffleArray(array): copy, shuffle the copy in place, return
    it. The loop starts at [shuffled.length - 1] and runs while [i > 0];
    for an empty array the start value is -1 in the script and 0 here, and
    the loop body does not run in either case. *)
Definition shuffleArray (array : loc) : R A loc :=
  let* elems := contents array in
  let* shuffled := alloc elems in
  let* n := array_length shuffled in
  let* _ := shuffle_loop shuffled (n - 1) in
  ret shuffled.

End Shuffle.

End Runtime.

(* ====================================================================== *)
(** ** The game engine                                                    *)
(* ====================================================================== *)

Module Engine.
Import Runtime.Notations.

(** *** Data *)

(** A description is either a plain string (the older data format) or an
    object with one string per language code. *)
Inductive Description :=
| PlainText (text : string)
| LocalizedText (texts : gmap string string).

Record Activity := mkActivity {
  description : Description;
  correctQuadrant : string
}.

(** A label table of [translations]: a flat object from label name to text. *)
Abbreviation Table := (gmap string string).

(** What [currentActivityEl] shows: the page as delivered, an activity
    (the JavaScript value assigned to [textContent]; [None] stands for
    [undefined]), the "Error loading activities" block, or the final
    results with score, total and percentage ([None] for [NaN] and
    [Infinity]). *)
Inductive Screen :=
| Markup
| ActivityText (text : option string)
| LoadError
| GameComplete (finalScore : Z) (total : nat) (accuracy : option Z).

(** [feedbackEl.className]: as delivered, "feedback hidden", "feedback
    success" or "feedback error". *)
Inductive FeedbackClass :=
| FeedbackMarkup
| FeedbackHidden
| FeedbackSuccess
| FeedbackError.

(** [style.display] of the [.time-matrix] element: not set (the style
    sheet decides), "grid" or "none". *)
Inductive Display :=
| DisplayStylesheet
| DisplayGrid
| DisplayNone.

(** The callbacks the script hands to [setTimeout] with the delay of 1500
    ms. (The callbacks of 300 ms and 2500 ms only remove CSS classes from
    the quadrant elements, which are not part of the state below.) *)
Inductive Callback :=
| CallShowNextActivity.

(** The top-level variables of the script, the attributes of the DOM
    elements it writes, the language preference in [localStorage] and the
    callbacks that wait for their delay to pass, oldest first. *)
Record Game := mkGame {
  runtime : Runtime.t Activity;
  activities : Runtime.loc;
  shuffledActivities : Runtime.loc;
  currentActivityIndex : nat;
  score : Z;
  totalActivities : nat;
  currentLanguage : string;
  translations : gmap string Table;
  localStorage : option string;
  currentActivityEl : Screen;
  scoreEl : Z;
  progressEl : option (nat * nat);
  feedbackEl : FeedbackClass;
  timeMatrix : Display;
  timers : list Callback
}.

(** Assignments to one variable or attribute. *)

Definition set_runtime (v : Runtime.t Activity) (g : Game) : Game :=
  mkGame v (activities g) (shuffledActivities g) (currentActivityIndex g)
    (score g) (totalActivities g) (currentLanguage g) (translations g)
    (localStorage g) (currentActivityEl g) (scoreEl g) (progressEl g)
    (feedbackEl g) (timeMatrix g) (timers g).

Definition set_activities (v : Runtime.loc) (g : Game) : Game :=
  mkGame (runtime g) v (shuffledActivities g) (currentActivityIndex g)
    (score g) (totalActivities g) (currentLanguage g) (translations g)
    (localStorage g) (currentActivityEl g) (scoreEl g) (progressEl g)
    (feedbackEl g) (timeMatrix g) (timers g).

Definition set_shuffledActivities (v : Runtime.loc) (g : Game) : Game :=
  mkGame (runtime g) (activities g) v (currentActivityIndex g) (score g)
    (totalActivities g) (currentLanguage g) (translations g) (localStorage
    g) (currentActivityEl g) (scoreEl g) (progressEl g) (feedbackEl g)
    (timeMatrix g) (timers g).

Definition set_currentActivityIndex (v : nat) (g : Game) : Game :=
  mkGame (runtime g) (activities g) (shuffledActivities g) v (score g)
    (totalActivities g) (currentLanguage g) (translations g) (localStorage
    g) (currentActivityEl g) (scoreEl g) (progressEl g) (feedbackEl g)
    (timeMatrix g) (timers g).

Definition set_score (v : Z) (g : Game) : Game :=
  mkGame (runtime g) (activities g) (shuffledActivities g)
    (currentActivityIndex g) v (totalActivities g) (currentLanguage g)
    (translations g) (localStorage g) (currentActivityEl g) (scoreEl g)
    (progressEl g) (feedbackEl g) (timeMatrix g) (timers g).

Definition set_totalActivities (v : nat) (g : Game) : Game :=
  mkGame (runtime g) (activities g) (shuffledActivities g)
    (currentActivityIndex g) (score g) v (currentLanguage g) (translations
    g) (localStorage g) (currentActivityEl g) (scoreEl g) (progressEl g)
    (feedbackEl g) (timeMatrix g) (timers g).

Definition set_currentLanguage (v : string) (g : Game) : Game :=
  mkGame (runtime g) (activities g) (shuffledActivities g)
    (currentActivityIndex g) (score g) (totalActivities g) v (translations
    g) (localStorage g) (currentActivityEl g) (scoreEl g) (progressEl g)
    (feedbackEl g) (timeMatrix g) (timers g).

Definition set_translations (v : gmap string Table) (g : Game) : Game :=
  mkGame (runtime g) (activities g) (shuffledActivities g)
    (currentActivityIndex g) (score g) (totalActivities g)
    (currentLanguage g) v (localStorage g) (currentActivityEl g) (scoreEl
    g) (progressEl g) (feedbackEl g) (timeMatrix g) (timers g).

Definition set_localStorage (v : option string) (g : Game) : Game :=
  mkGame (runtime g) (activities g) (shuffledActivities g)
    (currentActivityIndex g) (score g) (totalActivities g)
    (currentLanguage g) (translations g) v (currentActivityEl g) (scoreEl
    g) (progressEl g) (feedbackEl g) (timeMatrix g) (timers g).

Definition set_currentActivityEl (v : Screen) (g : Game) : Game :=
  mkGame (runtime g) (activities g) (shuffledActivities g)
    (currentActivityIndex g) (score g) (totalActivities g)
    (currentLanguage g) (translations g) (localStorage g) v (scoreEl g)
    (progressEl g) (feedbackEl g) (timeMatrix g) (timers g).

Definition set_scoreEl (v : Z) (g : Game) : Game :=
  mkGame (runtime g) (activities g) (shuffledActivities g)
    (currentActivityIndex g) (score g) (totalActivities g)
    (currentLanguage g) (translations g) (localStorage g)
    (currentActivityEl g) v (progressEl g) (feedbackEl g) (timeMatrix g)
    (timers g).

Definition set_progressEl (v : option (nat * nat)) (g : Game) : Game :=
  mkGame (runtime g) (activities g) (shuffledActivities g)
    (currentActivityIndex g) (score g) (totalActivities g)
    (currentLanguage g) (translations g) (localStorage g)
    (currentActivityEl g) (scoreEl g) v (feedbackEl g) (timeMatrix g)
    (timers g).

Definition set_feedbackEl (v : FeedbackClass) (g : Game) : Game :=
  mkGame (runtime g) (activities g) (shuffledActivities g)
    (currentActivityIndex g) (score g) (totalActivities g)
    (currentLanguage g) (translations g) (localStorage g)
    (currentActivityEl g) (scoreEl g) (progressEl g) v (timeMatrix g)
    (timers g).

Definition set_timeMatrix (v : Display) (g : Game) : Game :=
  mkGame (runtime g) (activities g) (shuffledActivities g)
    (currentActivityIndex g) (score g) (totalActivities g)
    (currentLanguage g) (translations g) (localStorage g)
    (currentActivityEl g) (scoreEl g) (progressEl g) (feedbackEl g) v
    (timers g).

Definition set_timers (v : list Callback) (g : Game) : Game :=
  mkGame (runtime g) (activities g) (shuffledActivities g)
    (currentActivityIndex g) (score g) (totalActivities g)
    (currentLanguage g) (translations g) (localStorage g)
    (currentActivityEl g) (scoreEl g) (progressEl g) (feedbackEl g)
    (timeMatrix g) v.

(** The contents of the two arrays. Both variables always refer to an
    allocated array. *)
Definition activities_of (g : Game) : list Activity :=
  default [] (Runtime.heap (runtime g) !! activities g).

Definition shuffled_of (g : Game) : list Activity :=
  default [] (Runtime.heap (runtime g) !! shuffledActivities g).

(** How an event handler ends: normally, or by the [TypeError] of reading a
    property of [undefined]. *)
Inductive Completion :=
| Normal
| TypeError.

(** *** Content resolution *)

(** [a || b] on values that are strings or [undefined]: the empty string
    and [undefined] are falsy. *)
Definition js_or (a b : option string) : option string :=
  match a with
  | Some s => if decide (s = "") then b else Some s
  | None => b
  end.

(** The text [displayActivity] computes for a description:
      let activityText = activity.description;
      if (typeof activity.description === "object" && ... !== null)
        activityText = activity.description[currentLanguage]
                       || activity.description.en; *)
Definition activityText (d : Description) (lang : string) : option string :=
  match d with
  | PlainText text => Some text
  | LocalizedText texts => js_or (texts !! lang) (texts !! "en")
  end.

(** *** Completion *)

(** JavaScript numbers are IEEE 754 doubles: 53 bits of precision,
    exponents below 1024, results rounded to the nearest double. *)
Definition Number (z : Z) : spec_float := binary_normalize 53 1024 z 0 false.

Definition divide (x y : spec_float) : spec_float := SFdiv 53 1024 x y.

Definition multiply (x y : spec_float) : spec_float := SFmul 53 1024 x y.

(** The rational that a finite double stands for. *)
Definition finite_value (x : spec_float) : option Q :=
  match x with
  | S754_zero _ => Some 0%Q
  | S754_finite negative m e =>
      Some (inject_Z (if negative then Z.neg m else Z.pos m) * 2 ^ e)%Q
  | S754_infinity _ | S754_nan => None
  end.

(** [Math.round(x)]: the nearest integer, halves rounded up; [None] for
    [NaN] and the infinities, which it returns unchanged. *)
Definition Math_round (x : spec_float) : option Z :=
  match finite_value x with
  | Some q => Some (Qfloor (q + (1 # 2)))
  | None => None
  end.

(** [Math.round((score / totalActivities) * 100)], computed as the script
    computes it. With [totalActivities = 0] the quotient is [NaN] or
    [Infinity], and so is the result. *)
Definition accuracy (score : Z) (totalActivities : nat) : option Z :=
  Math_round
    (multiply (divide (Number score) (Number (Z.of_nat totalActivities)))
       (Number 100)).

(** function endGame(): both branches (with and without a label table for
    the current language) render the same three numbers. *)
Definition endGame (g : Game) : Game :=
  let g := set_currentActivityEl
             (GameComplete (score g) (totalActivities g)
                (accuracy (score g) (totalActivities g))) g in
  set_timeMatrix DisplayNone g.

(** *** Presenting and answering *)

(** function hideFeedback() *)
Definition hideFeedback (g : Game) : Game :=
  set_feedbackEl FeedbackHidden g.

(** function displayActivity(index). [shuffledActivities[index]] is
    defined exactly when [index < shuffledActivities.length]. *)
Definition displayActivity (index : nat) (g : Game) : Game :=
  match shuffled_of g !! index with
  | None => endGame g
  | Some activity =>
      let g := set_currentActivityIndex index g in
      let g := set_currentActivityEl
                 (ActivityText
                    (activityText (description activity) (currentLanguage g))) g in
      let g := set_progressEl (Some (index + 1, totalActivities g)) g in
      hideFeedback g
  end.

(** function startGame() *)
Definition startGame (g : Game) : Game :=
  if decide (length (activities_of g) = 0) then g
  else displayActivity 0 g.

(** function updateScore(points) *)
Definition updateScore (points : Z) (g : Game) : Game :=
  let g := set_score (score g + points)%Z g in
  set_scoreEl (score g) g.

(** function showTextFeedback(isCorrect, activity), the later of the two
    declarations: in every branch the class is "feedback success" for a
    correct answer and "feedback error" otherwise. (The message text is not
    part of the state.) *)
Definition showTextFeedback (isCorrect : bool) (activity : Activity)
    (g : Game) : Game :=
  set_feedbackEl (if isCorrect then FeedbackSuccess else FeedbackError) g.

(** setTimeout(callback, 1500) *)
Definition setTimeout (callback : Callback) (g : Game) : Game :=
  set_timers (timers g ++ [callback]) g.

(** function showNextActivity() *)
Definition showNextActivity (g : Game) : Game :=
  let nextIndex := currentActivityIndex g + 1 in
  if decide (length (shuffled_of g) <= nextIndex) then endGame g
  else displayActivity nextIndex g.

(** function selectQuadrant(selectedQuadrant). The argument is a string,
    or [undefined] ([None]). Reading [correctQuadrant] of an undefined
    [currentActivity] throws. ([showQuadrantFeedback] only touches CSS
    classes of the quadrant elements.) *)
Definition selectQuadrant (selectedQuadrant : option string) (g : Game)
    : Completion * Game :=
  match shuffled_of g !! currentActivityIndex g with
  | None => (TypeError, g)
  | Some currentActivity =>
      let isCorrect :=
        bool_decide (selectedQuadrant = Some (correctQuadrant currentActivity)) in
      let g := if isCorrect then updateScore 1 g else g in
      let g := showTextFeedback isCorrect currentActivity g in
      let g := setTimeout CallShowNextActivity g in
      (Normal, g)
  end.

(** *** Restarting *)

(** function resetGame() *)
Definition resetGame (g : Game) : Game :=
  let g := set_score 0 g in
  let g := set_currentActivityIndex 0 g in
  let g := set_scoreEl 0 g in
  let g := set_timeMatrix DisplayGrid g in
  startGame g.

(** function resetGameToLanguage() *)
Definition resetGameToLanguage (g : Game) : Game :=
  let g := set_score 0 g in
  let g := set_currentActivityIndex 0 g in
  let g := set_scoreEl 0 g in
  let g := set_timeMatrix DisplayGrid g in
  let g := set_progressEl (Some (0, totalActivities g)) g in
  let g := hideFeedback g in
  if decide (0 < length (activities_of g)) then displayActivity 0 g
  else g.

(** function changeLanguage(language). [applyTranslations] and
    [updateHelpModalTranslations] write labels of the new language into
    the page and are taken to end normally (the label tables have the
    quadrant titles that [updateQuadrantTranslations] splits). *)
Definition changeLanguage (language : string) (g : Game) : Game :=
  match translations g !! language with
  | None => g
  | Some _ =>
      let g := set_currentLanguage language g in
      let g := set_localStorage (Some language) g in
      resetGameToLanguage g
  end.

(** *** Input *)

(** The keydown listener. *)
Definition quadrantMap : gmap string string :=
  {[ "1" := "q1"; "2" := "q2"; "3" := "q3"; "4" := "q4" ]}.

Definition keydown (key : string) (g : Game) : Completion * Game :=
  if String.leb "1" key && String.leb key "4"
  then selectQuadrant (quadrantMap !! key) g
  else (Normal, g).

(** A delay has passed: the oldest waiting callback runs. *)
Definition runTimer (g : Game) : Game :=
  match timers g with
  | [] => g
  | CallShowNextActivity :: rest => showNextActivity (set_timers rest g)
  end.

(** What can happen once the page is up. *)
Inductive Event :=
| Click (quadrant : string)
| KeyDown (key : string)
| PlayAgain
| LanguageSelected (language : string)
| TimerFires.

(** An exception ends the handler; the state stays as the handler left it. *)
Definition handle (ev : Event) (g : Game) : Game :=
  match ev with
  | Click quadrant => snd (selectQuadrant (Some quadrant) g)
  | KeyDown key => snd (keydown key g)
  | PlayAgain => resetGame g
  | LanguageSelected language => changeLanguage language g
  | TimerFires => runTimer g
  end.

Definition run (evs : list Event) (g : Game) : Game :=
  foldl (fun g ev => handle ev g) g evs.

(** *** Loading *)

Definition bilingual (en pt quadrant : string) : Activity :=
  mkActivity (LocalizedText {[ "en" := en; "pt" := pt ]}) quadrant.

(** [embeddedData.activities] of [useEmbeddedData] *)
Definition embeddedData : list Activity :=
[
  bilingual "Clean up after a water leak or spill"
    "Limpar após um vazamento de água ou derramamento" "q1";
  bilingual "Cook dinner because the family needs to eat now"
    "Cozinhar o jantar porque a família precisa comer agora" "q1";
  bilingual "Wash dishes when there are none left for the next meal"
    "Lavar a louça quando não há mais para a próxima refeição" "q1";
  bilingual "Emergency grocery run due to no food at home"
    "Compra de emergência de mantimentos por falta de comida em casa" "q1";
  bilingual "Fix a broken appliance essential for daily life"
    "Consertar um eletrodoméstico quebrado essencial para o dia a dia" "q1";
  bilingual "Take out overflowing trash"
    "Colocar o lixo transbordando para fora" "q1";
  bilingual "Handle a sudden pest problem"
    "Resolver um problema súbito de pragas" "q1";
  bilingual "Weekly meal planning"
    "Planejamento semanal de refeições" "q2";
  bilingual "Regular house cleaning schedule"
    "Agenda regular de limpeza da casa" "q2";
  bilingual "Organizing cupboards and storage areas"
    "Organizar armários e áreas de armazenamento" "q2";
  bilingual "Preventive home maintenance"
    "Manutenção preventiva da casa" "q2";
  bilingual "Batch cooking meals for the week"
    "Cozinhar refeições em lote para a semana" "q2";
  bilingual "Decluttering unused items"
    "Desfazer-se de itens não utilizados" "q2";
  bilingual "Creating a household budget"
    "Criar um orçamento doméstico" "q2";
  bilingual "Teaching children household routines"
    "Ensinar às crianças rotinas domésticas" "q2";
  bilingual "Deep cleaning bathrooms and kitchen appliances"
    "Limpeza profunda de banheiros e eletrodomésticos" "q2";
  bilingual "Cleaning the house suddenly because guests might arrive"
    "Limpar a casa de repente porque os convidados podem chegar" "q3";
  bilingual "Re-cleaning already clean areas unnecessarily"
    "Re-limpar áreas já limpas desnecessariamente" "q3";
  bilingual "Cooking an elaborate meal due to social pressure"
    "Cozinhar uma refeição elaborada por pressão social" "q3";
  bilingual "Responding immediately to non-essential household messages"
    "Responder imediatamente a mensagens domésticas não essenciais" "q3";
  bilingual "Impulsively rearranging furniture"
    "Reorganizar impulsivamente os móveis" "q3";
  bilingual "Running errands that feel urgent but could wait"
    "Fazer recados que parecem urgentes mas podem esperar" "q3";
  bilingual "Excessive TV watching instead of doing chores"
    "Assistir TV em excesso em vez de fazer tarefas" "q4";
  bilingual "Endless scrolling on the phone"
    "Rolagem interminável no telefone" "q4";
  bilingual "Re-organizing the same drawer repeatedly"
    "Re-organizar a mesma gaveta repetidamente" "q4";
  bilingual "Playing games while chores pile up"
    "Jogar videogames enquanto as tarefas se acumulam" "q4";
  bilingual "Researching cleaning methods instead of cleaning"
    "Pesquisar métodos de limpeza em vez de limpar" "q4";
  bilingual "Over-shopping for unnecessary household items"
    "Comprar demais itens domésticos desnecessários" "q4"
].

(** [message.includes(part)] *)
Definition includes (part message : string) : bool :=
  bool_decide (is_Some (String.index 0 part message)).

(** What the [fetch] of data.json and the parsing of its body come to: the
    array [data.activities], or an error with its message. *)
Inductive FetchResult :=
| FetchOk (data : list Activity)
| FetchError (message : string).

Section Loading.
Variable random : nat -> Q.

(** The statements [loadActivities] and [useEmbeddedData] share:
      activities = ...;  totalActivities = activities.length;
      shuffledActivities = shuffleArray([...activities]);
      progressEl.textContent = `0 / ${totalActivities}`;
      startGame();
    [data] is a new array (parsed from the response, or the literal). *)
Definition adopt (data : list Activity) (g : Game) : option Game :=
  let program :=
    let* loaded := Runtime.alloc data in
    let* elems := Runtime.contents loaded in
    let* copy := Runtime.alloc elems in
    let* shuffled := Runtime.shuffleArray random copy in
    Runtime.ret (loaded, shuffled) in
  match program (runtime g) with
  | None => None
  | Some ((loaded, shuffled), rt) =>
      let g := set_runtime rt g in
      let g := set_activities loaded g in
      let g := set_totalActivities (length data) g in
      let g := set_shuffledActivities shuffled g in
      let g := set_progressEl (Some (0, totalActivities g)) g in
      Some (startGame g)
  end.

(** function useEmbeddedData() *)
Definition useEmbeddedData (g : Game) : option Game :=
  adopt embeddedData g.

(** The [catch] block of [loadActivities] *)
Definition loadFailed (message : string) (g : Game) : option Game :=
  if includes "Failed to fetch" message || includes "CORS" message
  then useEmbeddedData g
  else Some (set_currentActivityEl LoadError g).

(** async function loadActivities(), from the point where the response
    has arrived. *)
Definition loadActivities (r : FetchResult) (g : Game) : option Game :=
  match r with
  | FetchError message => loadFailed message g
  | FetchOk data =>
      if decide (length data = 0)
      then loadFailed "No activities found in data.json" g
      else adopt data g
  end.

(** The state in which the script starts: [activities] and
    [shuffledActivities] are two empty arrays. *)
Definition start : Game :=
  mkGame (Runtime.mk (<[1 := []]> (<[0 := []]> ∅)) 0) 0 1 0 0%Z 0
         "en" ∅ None Markup 0%Z None FeedbackMarkup DisplayStylesheet [].

(** The states the page can be in. [loadTranslations] is covered by what it
    may write: [translations], [currentLanguage] and the stored
    preference. *)
Inductive reachable : Game -> Prop :=
| reach_start :
    reachable start
| reach_translations g tr lang stored :
    reachable g ->
    reachable (set_localStorage stored
                 (set_currentLanguage lang (set_translations tr g)))
| reach_load g r g' :
    reachable g -> loadActivities r g = Some g' -> reachable g'
| reach_event g ev :
    reachable g -> reachable (handle ev g).

End Loading.

End Engine.


(* ====================================================================== *)
(** ** Notions used by the statements, and sample data                    *)
(* ====================================================================== *)

Module Notions.
Import Engine.

(** The activity a click is judged against. *)
Definition currentItem (g : Game) : option Activity :=
  shuffled_of g !! currentActivityIndex g.

(** [g'] works on the content of [g]: the same arrays with the same
    elements, the same total, and no random number drawn in between. *)
Definition same_content (g g' : Game) : Prop :=
  runtime g' = runtime g
  /\ activities g' = activities g
  /\ shuffledActivities g' = shuffledActivities g
  /\ totalActivities g' = totalActivities g.

(** Content has been loaded and the index points into the order. *)
Definition in_session (g : Game) : Prop :=
  0 < length (shuffled_of g)
  /\ length (activities_of g) = length (shuffled_of g)
  /\ totalActivities g = length (shuffled_of g)
  /\ currentActivityIndex g < length (shuffled_of g).

(** No content has been loaded. *)
Definition without_content (g : Game) : Prop :=
  activities_of g = []
  /\ shuffled_of g = []
  /\ totalActivities g = 0
  /\ timers g = []
  /\ (currentActivityEl g = Markup \/ currentActivityEl g = LoadError).

(** A completion screen shows the percentage of [endGame], computed from
    a non-zero total. *)
Definition completion_sound (g : Game) : Prop :=
  forall s t acc,
    currentActivityEl g = GameComplete s t acc ->
    t <> 0 /\ acc = accuracy s t.

(** The events that hand an answer to [selectQuadrant]. *)
Definition is_answer (ev : Event) : bool :=
  match ev with
  | Click _ | KeyDown _ => true
  | _ => false
  end.

(** One answer per presented item, each followed by its advance. *)
Definition answer_and_advance (answers : list string) : list Event :=
  flat_map (fun q => [Click q; TimerFires]) answers.

(** The events of a player who answers and waits: answers and advances. *)
Definition plays (ev : Event) : bool :=
  match ev with
  | Click _ | KeyDown _ | TimerFires => true
  | _ => false
  end.

(** A session as it is right after loading or restarting. *)
Definition fresh_session (g : Game) : Prop :=
  in_session g
  /\ score g = 0%Z
  /\ currentActivityIndex g = 0
  /\ timers g = [].

(** The screen that presents activity [a] in language [lang]. *)
Definition presents (a : Activity) (lang : string) : Screen :=
  ActivityText (activityText (description a) lang).

(** *** Readings of the specification that the script does not follow *)

(** "No operation other than answering mutates the score." *)
Definition only_answers_write_score (random : nat -> Q) : Prop :=
  forall (g : Game) (ev : Event),
    reachable random g -> is_answer ev = false ->
    score (handle ev g) = score g.

(** "After every answer/advance pair, score <= position", the position
    being [currentActivityIndex]. *)
Definition score_within_position (random : nat -> Q) : Prop :=
  forall (g : Game) (answers : list string),
    reachable random g -> fresh_session g ->
    (score (run (answer_and_advance answers) g)
     <= Z.of_nat (currentActivityIndex (run (answer_and_advance answers) g)))%Z.

(** [g'] has the order that running
      shuffledActivities = shuffleArray([...activities])
    in [g] produces. *)
Definition reshuffled (random : nat -> Q) (g g' : Game) : Prop :=
  exists elems copy rt1 shuffled rt2 order,
    Runtime.heap (runtime g) !! activities g = Some elems
    /\ Runtime.alloc elems (runtime g) = Some (copy, rt1)
    /\ Runtime.shuffleArray random copy rt1 = Some (shuffled, rt2)
    /\ Runtime.heap rt2 !! shuffled = Some order
    /\ shuffled_of g' = order.

(** "Restarting and switching the language regenerate the order." *)
Definition restart_reshuffles (random : nat -> Q) : Prop :=
  forall (g : Game) (language : string),
    reachable random g -> in_session g ->
    is_Some (translations g !! language) ->
    reshuffled random g (resetGame g)
    /\ reshuffled random g (changeLanguage language g).

(** "The string for the active language is returned if present." *)
Definition present_language_wins : Prop :=
  forall (texts : gmap string string) (lang s : string),
    texts !! lang = Some s ->
    activityText (LocalizedText texts) lang = Some s.

(** "An advance scheduled before a restart is ignored when it fires." *)
Definition stale_advance_ignored (random : nat -> Q) : Prop :=
  forall (g : Game) (q : string),
    reachable random g -> fresh_session g ->
    currentActivityIndex (run [Click q; PlayAgain; TimerFires] g)
    = currentActivityIndex (run [Click q; PlayAgain] g).

(** "After [k] answers to one item, the items between it and the one [k]
    places further are never presented": while the advances fire, the
    position is either still the old one or already the final one. *)
Definition skipped_never_presented (random : nat -> Q) : Prop :=
  forall (g : Game) (clicks : list string) (m : nat),
    reachable random g -> fresh_session g ->
    currentActivityIndex g + length clicks < length (shuffled_of g) ->
    m <= length clicks ->
    let g' := run (map Click clicks ++ replicate m TimerFires) g in
    currentActivityIndex g' = currentActivityIndex g
    \/ currentActivityIndex g' = currentActivityIndex g + length clicks.

(** *** Sample data *)

(** A source of random numbers: 0, 1/3, 2/3, 0, 1/3, 2/3, ... *)
Definition sample_random (k : nat) : Q := Z.of_nat (k mod 3) # 3.

Definition sample_runtime : Runtime.t nat :=
  Runtime.mk {[ 0 := [10; 20; 30; 40] ]} 0.

Definition pay_bill : Activity :=
  mkActivity (PlainText "Pay the bill that is due today") "q1".

Definition plan_week : Activity :=
  bilingual "Plan the meals of next week" "Planejar as refeições da semana" "q2".

Definition answer_phone : Activity :=
  mkActivity (LocalizedText {[ "en" := "Answer a ringing phone" ]}) "q3".

Definition sample_activities : list Activity :=
  [pay_bill; plan_week; answer_phone].

Definition sample_labels_en : gmap string string :=
  {[ "q1Title" := "Q1: Important & Urgent";
     "q2Title" := "Q2: Important & Not Urgent";
     "q3Title" := "Q3: Not Important & Urgent";
     "q4Title" := "Q4: Not Important & Not Urgent" ]}.

Definition sample_labels_pt : gmap string string :=
  {[ "q1Title" := "Q1: Importante e Urgente";
     "q2Title" := "Q2: Importante e Não Urgente";
     "q3Title" := "Q3: Não Importante e Urgente";
     "q4Title" := "Q4: Não Importante e Não Urgente" ]}.

Definition sample_translations : gmap string (gmap string string) :=
  {[ "en" := sample_labels_en; "pt" := sample_labels_pt ]}.

(** The page with label tables for English and Portuguese, before the
    activities arrive. *)
Definition sample_page : Game :=
  set_translations sample_translations start.

(** The session that starts when [sample_activities] arrive. *)
Definition sample_session : Game :=
  default sample_page
    (loadActivities sample_random (FetchOk sample_activities) sample_page).

(** The same session, played to the end with three right answers. *)
Definition sample_finished : Game :=
  run (answer_and_advance ["q2"; "q3"; "q1"]) sample_session.

(** A description whose Portuguese text is the empty string. *)
Definition half_translated : gmap string string :=
  {[ "en" := "Water the plants"; "pt" := "" ]}.

End Notions.

(* ====================================================================== *)
(** ** The rest of the page: labels, translations, help                   *)
(* ====================================================================== *)

Module Page.
Import Engine Notions.

(** *** Quadrant names *)

(** [a || b] where [b] is a string. *)
Definition or_string (a : option string) (b : string) : string :=
  match a with
  | Some s => if decide (s = "") then b else s
  | None => b
  end.

(** The [names] object of the branch of [getQuadrantName] that runs
    without a label table for the current language. *)
Definition builtinNames : gmap string string :=
  {[ "q1" := "Q1 (Important & Urgent)";
     "q2" := "Q2 (Important & Not Urgent)";
     "q3" := "Q3 (Not Important & Urgent)";
     "q4" := "Q4 (Not Important & Not Urgent)" ]}.

(** The [names] object of the other branch:
      { q1: t.q1Title, q2: t.q2Title, q3: t.q3Title, q4: t.q4Title }
    looked up at [quadrant]; [None] is [undefined]. *)
Definition titleOf (t : gmap string string) (quadrant : string)
    : option string :=
  if decide (quadrant = "q1") then t !! "q1Title"
  else if decide (quadrant = "q2") then t !! "q2Title"
  else if decide (quadrant = "q3") then t !! "q3Title"
  else if decide (quadrant = "q4") then t !! "q4Title"
  else None.

(** function getQuadrantName(quadrant) *)
Definition getQuadrantName (g : Game) (quadrant : string) : string :=
  match translations g !! currentLanguage g with
  | None => or_string (builtinNames !! quadrant) quadrant
  | Some t => or_string (titleOf t quadrant) quadrant
  end.

(** *** The quadrant headers *)

(** [s] with [sep] taken off its front, if it starts with [sep]. *)
Fixpoint after_prefix (sep s : string) : option string :=
  match sep, s with
  | EmptyString, _ => Some s
  | String a sep', String b s' =>
      if Ascii.eqb a b then after_prefix sep' s' else None
  | String _ _, EmptyString => None
  end.

(** The parts of [s] before and after the first occurrence of [sep]. *)
Fixpoint split_first (sep s : string) : option (string * string) :=
  match after_prefix sep s with
  | Some rest => Some (EmptyString, rest)
  | None =>
      match s with
      | EmptyString => None
      | String c s' =>
          match split_first sep s' with
          | Some (before, rest) => Some (String c before, rest)
          | None => None
          end
      end
  end.

(** [s.split(sep)[0]], for a separator that is not empty *)
Definition split_0 (sep s : string) : string :=
  match split_first sep s with
  | Some (before, _) => before
  | None => s
  end.

(** [s.split(sep)[1]], for a separator that is not empty; [None] is
    [undefined] *)
Definition split_1 (sep s : string) : option string :=
  match split_first sep s with
  | Some (_, rest) => Some (split_0 sep rest)
  | None => None
  end.

(** What [updateQuadrantTranslations] writes for a quadrant whose title is
    [title]: the subtitle [title.split(": ")[1]] and the text of the
    button, [title.split(":")[0]]. *)
Definition quadrantSubtitle (title : string) : option string :=
  split_1 ": " title.

Definition quadrantButton (title : string) : string :=
  split_0 ":" title.

(** [sep] occurs nowhere in [s]. *)
Definition free_of (sep s : string) : Prop :=
  forall a b : string, s <> a +:+ sep +:+ b.

(** *** Translations *)

(** The two tables that [getEmbeddedTranslations] returns. *)
Definition embedded_en : gmap string string :=
  list_to_map
  [
     ("title",
      "FranklinCovey Time Matrix Game");
     ("instructions",
      "Classify each activity into the correct quadrant of the Time Matrix: <strong>Q1 (Important & Urgent)</strong>, <strong>Q2 (Important & Not Urgent)</strong>, <strong>Q3 (Not Important & Urgent)</strong>, or <strong>Q4 (Not Important & Not Urgent)</strong>.");
     ("scoreLabel",
      "Score:");
     ("activitiesLabel",
      "Activities:");
     ("currentActivityTitle",
      "Current Activity");
     ("timeMatrixTitle",
      "Time Matrix Quadrants");
     ("helpButton",
      "Help");
     ("helpModalTitle",
      "Game Rules & Instructions");
     ("howToPlay",
      "How to Play");
     ("howToPlayStep1",
      "Read the Activity: An activity description will appear above the Time Matrix.");
     ("howToPlayStep2",
      "Classify the Activity: Click on the quadrant (Q1, Q2, Q3, or Q4) where you think this activity belongs.");
     ("howToPlayStep3",
      "Get Feedback: You'll see immediate feedback - green for correct, red for incorrect.");
     ("howToPlayStep4",
      "Learn: If incorrect, you'll see which quadrant was correct with an explanation.");
     ("howToPlayStep5",
      "Continue: The next activity will appear automatically after a short delay.");
     ("quadrantGuide",
      "The Four Quadrants");
     ("q1Title",
      "Q1: Important & Urgent");
     ("q1Examples",
      "Examples: Crises, deadlines, emergencies, urgent problems");
     ("q1Strategy",
      "Strategy: Handle immediately, but try to reduce these through better planning");
     ("q2Title",
      "Q2: Important & Not Urgent");
     ("q2Examples",
      "Examples: Planning, prevention, values, relationship building");
     ("q2Strategy",
      "Strategy: Schedule time for these - they're key to long-term success");
     ("q3Title",
      "Q3: Not Important & Urgent");
     ("q3Examples",
      "Examples: Some calls, meetings, interruptions, some emails");
     ("q3Strategy",
      "Strategy: Delegate or minimize - they feel urgent but aren't truly important");
     ("q4Title",
      "Q4: Not Important & Not Urgent");
     ("q4Examples",
      "Examples: Time wasters, excessive entertainment, trivial busywork");
     ("q4Strategy",
      "Strategy: Eliminate or minimize - these are pure time drains");
     ("scoringTitle",
      "Scoring");
     ("scoringCorrect",
      "+1 point for each correct classification");
     ("scoringIncorrect",
      "0 points for incorrect answers (no penalty)");
     ("scoringProgress",
      "See your progress and final accuracy percentage");
     ("learningGoals",
      "Learning Goals");
     ("learningGoal1",
      "Identify what's truly important vs. just urgent");
     ("learningGoal2",
      "Recognize time-wasting activities");
     ("learningGoal3",
      "Focus energy on Q2 activities for long-term success");
     ("learningGoal4",
      "Reduce time spent in Q1 through better planning");
     ("proTip",
      "Pro Tip:");
     ("proTipText",
      "The goal isn't just to win the game, but to learn how to apply these principles to your real life. Ask yourself: 'Which quadrant does this activity in my life belong to?'");
     ("gameComplete",
      "Game Complete!");
     ("finalScore",
      "Final Score:");
     ("accuracy",
      "Accuracy:");
     ("playAgain",
      "Play Again");
     ("correctFeedback",
      "✅ Correct! Well done!");
     ("incorrectFeedback",
      "❌ Incorrect. This activity belongs in");
     ("languageLabel",
      "Language:");
     ("english",
      "English");
     ("portuguese",
      "Português")
    ].

Definition embedded_pt : gmap string string :=
  list_to_map
  [
     ("title",
      "Jogo da Matriz de Tempo FranklinCovey");
     ("instructions",
      "Classifique cada atividade no quadrante correto da Matriz de Tempo: <strong>Q1 (Importante & Urgente)</strong>, <strong>Q2 (Importante & Não Urgente)</strong>, <strong>Q3 (Não Importante & Urgente)</strong>, ou <strong>Q4 (Não Importante & Não Urgente)</strong>.");
     ("scoreLabel",
      "Pontuação:");
     ("activitiesLabel",
      "Atividades:");
     ("currentActivityTitle",
      "Atividade Atual");
     ("timeMatrixTitle",
      "Quadrantes da Matriz de Tempo");
     ("helpButton",
      "Ajuda");
     ("helpModalTitle",
      "Regras do Jogo & Instruções");
     ("howToPlay",
      "Como Jogar");
     ("howToPlayStep1",
      "Leia a Atividade: Uma descrição de atividade aparecerá acima da Matriz de Tempo.");
     ("howToPlayStep2",
      "Classifique a Atividade: Clique no quadrante (Q1, Q2, Q3 ou Q4) onde você acha que essa atividade pertence.");
     ("howToPlayStep3",
      "Receba Feedback: Você verá feedback imediato - verde para correto, vermelho para incorreto.");
     ("howToPlayStep4",
      "Aprenda: Se estiver incorreto, você verá qual quadrante estava correto com uma explicação.");
     ("howToPlayStep5",
      "Continue: A próxima atividade aparecerá automaticamente após um curto intervalo.");
     ("quadrantGuide",
      "Os Quatro Quadrantes");
     ("q1Title",
      "Q1: Importante & Urgente");
     ("q1Examples",
      "Exemplos: Crises, prazos, emergências, problemas urgentes");
     ("q1Strategy",
      "Estratégia: Lidar imediatamente, mas tentar reduzir isso através de melhor planejamento");
     ("q2Title",
      "Q2: Importante & Não Urgente");
     ("q2Examples",
      "Exemplos: Planejamento, prevenção, valores, construção de relacionamentos");
     ("q2Strategy",
      "Estratégia: Agendar tempo para isso - são fundamentais para o sucesso a longo prazo");
     ("q3Title",
      "Q3: Não Importante & Urgente");
     ("q3Examples",
      "Exemplos: Algumas chamadas, reuniões, interrupções, alguns e-mails");
     ("q3Strategy",
      "Estratégia: Delegar ou minimizar - parecem urgentes mas não são realmente importantes");
     ("q4Title",
      "Q4: Não Importante & Não Urgente");
     ("q4Examples",
      "Exemplos: Perda de tempo, entretenimento excessivo, trabalho trivial");
     ("q4Strategy",
      "Estratégia: Eliminar ou minimizar - são puro desperdício de tempo");
     ("scoringTitle",
      "Pontuação");
     ("scoringCorrect",
      "+1 ponto para cada classificação correta");
     ("scoringIncorrect",
      "0 pontos para respostas incorretas (sem penalidade)");
     ("scoringProgress",
      "Veja seu progresso e percentual de acerto final");
     ("learningGoals",
      "Objetivos de Aprendizagem");
     ("learningGoal1",
      "Identificar o que é realmente importante versus apenas urgente");
     ("learningGoal2",
      "Reconhecer atividades que desperdiçam tempo");
     ("learningGoal3",
      "Focar energia nas atividades Q2 para sucesso a longo prazo");
     ("learningGoal4",
      "Reduzir tempo gasto no Q1 através de melhor planejamento");
     ("proTip",
      "Dica Profissional:");
     ("proTipText",
      "O objetivo não é apenas vencer o jogo, mas aprender a aplicar esses princípios à sua vida real. Pergunte-se: 'Em qual quadrante essa atividade da minha vida pertence?'");
     ("gameComplete",
      "Jogo Completo!");
     ("finalScore",
      "Pontuação Final:");
     ("accuracy",
      "Precisão:");
     ("playAgain",
      "Jogar Novamente");
     ("correctFeedback",
      "✅ Correto! Muito bem!");
     ("incorrectFeedback",
      "❌ Incorreto. Esta atividade pertence ao");
     ("languageLabel",
      "Idioma:");
     ("english",
      "Inglês");
     ("portuguese",
      "Português")
    ].

(** function getEmbeddedTranslations() *)
Definition getEmbeddedTranslations : gmap string Table :=
  {[ "en" := embedded_en; "pt" := embedded_pt ]}.

(** function useEmbeddedTranslations(). ([applyTranslations] writes labels
    into the page; [loadActivities] starts the request for data.json, whose
    answer is a later event.) *)
Definition useEmbeddedTranslations (g : Game) : Game :=
  set_translations getEmbeddedTranslations g.

(** What the [fetch] of lang.json and the parsing of its body come to: the
    object with one label table per language, or an error. *)
Inductive TranslationsFetch :=
| TranslationsOk (data : gmap string Table)
| TranslationsError (message : string).

(** The [catch] block of [loadTranslations]: both branches install the
    embedded tables. *)
Definition translationsFailed (message : string) (g : Game) : Game :=
  if includes "Failed to fetch" message || includes "CORS" message
  then useEmbeddedTranslations g
  else set_translations getEmbeddedTranslations g.

(** async function loadTranslations(), from the point where the response
    has arrived. A saved language is used when it is a non-empty string
    with a table of its own. (Tables are looked up by language code among
    the keys that lang.json has; the property names that every object
    inherits, such as "constructor", are not taken as language codes.) *)
Definition loadTranslations (r : TranslationsFetch) (g : Game) : Game :=
  match r with
  | TranslationsError message => translationsFailed message g
  | TranslationsOk data =>
      match data !! "en", data !! "pt" with
      | Some _, Some _ =>
          let g := set_translations data g in
          match localStorage g with
          | Some savedLanguage =>
              if decide (savedLanguage <> "" /\ is_Some (data !! savedLanguage))
              then set_currentLanguage savedLanguage g
              else set_localStorage (Some "en") (set_currentLanguage "en" g)
          | None => set_localStorage (Some "en") (set_currentLanguage "en" g)
          end
      | _, _ => translationsFailed "Invalid translation file format" g
      end
  end.


Section Lifecycle.
Variable random : nat -> Q.


End Lifecycle.



(** *** The help dialog *)

(** The help dialog ([None]: the page has no element "help-modal"; else
    whether its class list has "active") and [document.body.style.overflow]. *)
Record Help := mkHelp {
  modal : option bool;
  overflow : string
}.

(** function toggleHelp(). ([updateHelpModalTranslations] writes labels.) *)
Definition toggleHelp (h : Help) : Help :=
  match modal h with
  | None => h
  | Some true => mkHelp (Some false) ""
  | Some false => mkHelp (Some true) "hidden"
  end.

(** *** Counting *)

(** How many of the answers, given in order to the items of [order], name
    the item's quadrant. *)
Fixpoint right_answers (answers : list string) (order : list Activity) : nat :=
  match answers, order with
  | q :: answers', a :: order' =>
      (if decide (q = correctQuadrant a) then 1 else 0)
      + right_answers answers' order'
  | _, _ => 0
  end.

(** The page of a first visit on which lang.json could not be fetched. *)
Definition sample_embedded_page : Game :=
  loadTranslations (TranslationsError "Failed to fetch") start.

(** That visit, with the sample activities loaded, after a change to
    Portuguese and one right answer. *)
Definition sample_visit : Game :=
  run [LanguageSelected "pt"; Click "q2"; TimerFires]
    (default start
       (loadActivities sample_random (FetchOk sample_activities)
          sample_embedded_page)).

End Page.
(* ====================================================================== *)
(** ** The draws of a shuffle                                             *)
(* ====================================================================== *)

Module Draws.
Import Runtime.

(** The loop of [shuffleArray], entered with counter [i] after [calls]
    calls of [Math.random], draws the indices [js]: its pass number [k]
    (counting from 0) has the counter [i - k] and computes
    [Math.floor(Math.random() * (i - k + 1))]. *)
Definition draws (random : nat -> Q) (calls i : nat) (js : list nat) : Prop :=
  forall k j,
    js !! k = Some j ->
    Math_floor (random (calls + k) * inject_Z (Z.of_nat (i - k + 1))) = j.

End Draws.
(* ====================================================================== *)
(** ** Properties of the shuffle                                          *)
(* ====================================================================== *)

Module ShuffleFacts.
Import Runtime Notions.

Lemma Math_floor_index (r : Q) (i : nat) :
  unit_interval r -> Math_floor (r * inject_Z (Z.of_nat (i + 1))) <= i.
Proof.
  intros [Hlo Hhi]. unfold Math_floor.
  set (n := inject_Z (Z.of_nat (i + 1))).
  assert (Hn : (0 < n)%Q).
  { unfold n. change 0%Q with (inject_Z 0). rewrite <- Zlt_Qlt. lia. }
  assert (Hub : (r * n < n)%Q).
  { rewrite <- (Qmult_1_l n) at 2. apply Qmult_lt_compat_r; assumption. }
  pose proof (Qfloor_le (r * n)) as Hfl.
  assert (Hlt : (inject_Z (Qfloor (r * n)) < n)%Q)
    by (eapply Qle_lt_trans; eassumption).
  subst n. rewrite <- Zlt_Qlt in Hlt. lia.
Qed.

Section Loop.
Context {A : Type}.
Variable random : nat -> Q.
Hypothesis random_range : forall k, unit_interval (random k).

(** The loop only rewrites the array it is given, and what it leaves there
    is a rearrangement of what it found. *)
Lemma shuffle_loop_spec (i : nat) :
  forall (rt : Runtime.t A) (p : loc) (l : list A),
    heap rt !! p = Some l ->
    i <= length l - 1 ->
    exists l',
      shuffle_loop random p i rt
        = Some (tt, mk (<[p := l']> (heap rt)) (random_calls rt + i))
      /\ l' ≡ₚ l.
Proof.
  induction i as [|i IH]; intros rt p l Hp Hi.
  - exists l. split; [|reflexivity].
    cbn. unfold ret. rewrite insert_id by assumption.
    rewrite Nat.add_0_r. destruct rt; reflexivity.
  - assert (Hlen : S i < length l) by lia.
    pose proof (Math_floor_index (random (random_calls rt)) (S i)
                  (random_range _)) as Hj.
    set (j := Math_floor (random (random_calls rt)
                          * inject_Z (Z.of_nat (S i + 1)))) in *.
    destruct (lookup_lt_is_Some_2 l j ltac:(lia)) as [xj Hxj].
    destruct (lookup_lt_is_Some_2 l (S i) Hlen) as [xi Hxi].
    set (l1 := <[j := xi]> (<[S i := xj]> l)).
    assert (Hperm : l1 ≡ₚ l) by (apply Permutation_insert_swap; assumption).
    set (rt1 := mk (<[p := l1]> (heap rt)) (S (random_calls rt))).
    destruct (IH rt1 p l1) as (l' & Hrun & Hl').
    { unfold rt1; cbn. apply lookup_insert_eq. }
    { unfold l1. rewrite !length_insert. lia. }
    exists l'. split; [|etransitivity; eassumption].
    cbn [shuffle_loop]. unfold bind at 1. unfold Math_random.
    fold j. cbv zeta.
    unfold bind at 1, array_get at 1. cbn [heap]. rewrite Hp, Hxj.
    unfold bind at 1, array_get at 1. cbn [heap]. rewrite Hp, Hxi.
    unfold bind at 1, array_set at 1. cbn [heap random_calls]. rewrite Hp.
    rewrite decide_True by assumption.
    unfold bind at 1, array_set at 1. cbn [heap random_calls].
    rewrite lookup_insert_eq.
    rewrite decide_True by (rewrite length_insert; lia).
    rewrite insert_insert_eq. fold l1. fold rt1.
    rewrite Hrun. unfold rt1; cbn [heap random_calls].
    rewrite insert_insert_eq. do 3 f_equal. lia.
Qed.

Lemma shuffleArray_spec (rt : Runtime.t A) (array : loc) (l : list A) :
  heap rt !! array = Some l ->
  exists shuffled l',
    shuffleArray random array rt
      = Some (shuffled,
              mk (<[shuffled := l']> (heap rt)) (random_calls rt + (length l - 1)))
    /\ heap rt !! shuffled = None
    /\ l' ≡ₚ l.
Proof.
  intros Harr.
  set (shuffled := fresh (dom (heap rt))).
  assert (Hfresh : heap rt !! shuffled = None).
  { apply not_elem_of_dom. apply is_fresh. }
  set (rt0 := mk (<[shuffled := l]> (heap rt)) (random_calls rt)).
  destruct (shuffle_loop_spec (length l - 1) rt0 shuffled l) as (l' & Hrun & Hl').
  { apply lookup_insert_eq. }
  { lia. }
  exists shuffled, l'. split; [|split; assumption].
  unfold shuffleArray, bind, contents, alloc, array_length.
  rewrite Harr. cbn [heap random_calls]. fold shuffled. fold rt0.
  change (heap rt0 !! shuffled) with (<[shuffled := l]> (heap rt) !! shuffled).
  rewrite lookup_insert_eq. rewrite Hrun. unfold ret, rt0; cbn [heap random_calls].
  rewrite insert_insert_eq. reflexivity.
Qed.

(** C4. [shuffleArray] returns a new array holding a permutation of the
    elements of its argument (same elements with the same multiplicities,
    same length); the argument array, like every other array that existed
    before the call, is left as it was. *)
Theorem shuffleArray_permutation (rt : Runtime.t A) (array : loc) (l : list A) :
  heap rt !! array = Some l ->
  exists shuffled rt' l',
    shuffleArray random array rt = Some (shuffled, rt')
    /\ heap rt' !! shuffled = Some l'
    /\ l' ≡ₚ l
    /\ length l' = length l
    /\ shuffled <> array
    /\ heap rt' !! array = Some l
    /\ (forall p, p <> shuffled -> heap rt' !! p = heap rt !! p).
Proof.
  intros Harr.
  destruct (shuffleArray_spec rt array l Harr) as (shuffled & l' & Hrun & Hnew & Hperm).
  assert (Hne : shuffled <> array) by congruence.
  eexists shuffled, _, l'. split; [exact Hrun|]. cbn [heap].
  split; [apply lookup_insert_eq|].
  split; [assumption|].
  split; [apply Permutation_length; assumption|].
  split; [assumption|].
  split; [rewrite lookup_insert_ne by assumption; assumption|].
  intros p Hp. apply lookup_insert_ne. congruence.
Qed.

End Loop.

Lemma sample_random_range (k : nat) : unit_interval (sample_random k).
Proof.
  unfold unit_interval, sample_random, Qle, Qlt; cbn.
  pose proof (Nat.mod_upper_bound k 3). lia.
Qed.

Lemma shuffleArray_permutation_witness :
  exists shuffled rt' l',
    shuffleArray sample_random 0 sample_runtime = Some (shuffled, rt')
    /\ heap rt' !! shuffled = Some l'
    /\ l' ≡ₚ [10; 20; 30; 40]
    /\ length l' = 4
    /\ shuffled <> 0
    /\ heap rt' !! 0 = Some [10; 20; 30; 40]
    /\ (forall p, p <> shuffled -> heap rt' !! p = heap sample_runtime !! p).
Proof.
  apply (shuffleArray_permutation sample_random sample_random_range
           sample_runtime 0 [10; 20; 30; 40]).
  reflexivity.
Defined.

Example shuffleArray_sample :
  shuffleArray sample_random 0 sample_runtime
  = Some (1, mk {[ 0 := [10; 20; 30; 40]; 1 := [40; 30; 20; 10] ]} 3).
Proof. vm_compute. reflexivity. Qed.

End ShuffleFacts.

(* ====================================================================== *)
(** ** Properties of the engine                                           *)
(* ====================================================================== *)

Module EngineFacts.
Import Engine Notions.

(** *** Unfolding the script *)

Ltac unfold_views :=
  unfold same_content, in_session, fresh_session, without_content,
    currentItem, presents, activities_of, shuffled_of in *.

(** Run the script's functions on a symbolic state, as far as they go. *)
Ltac script :=
  unfold_views;
  lazy [handle keydown runTimer selectQuadrant changeLanguage
        resetGameToLanguage resetGame showNextActivity setTimeout
        showTextFeedback updateScore startGame displayActivity hideFeedback
        endGame activities_of shuffled_of currentItem presents
        set_runtime set_activities set_shuffledActivities
        set_currentActivityIndex set_score set_totalActivities
        set_currentLanguage set_translations set_localStorage
        set_currentActivityEl set_scoreEl set_progressEl set_feedbackEl
        set_timeMatrix set_timers
        runtime activities shuffledActivities currentActivityIndex score
        totalActivities currentLanguage translations localStorage
        currentActivityEl scoreEl progressEl feedbackEl timeMatrix timers
        fst snd] in *.

(** Read the fields of a state that is given by its constructor. *)
Ltac project :=
  cbn [runtime activities shuffledActivities currentActivityIndex score
       totalActivities currentLanguage translations localStorage
       currentActivityEl scoreEl progressEl feedbackEl timeMatrix timers
       fst snd] in *.

(** Follow every branch the script can take: case analysis on the
    innermost test that blocks the evaluation. *)
Ltac split_cases :=
  repeat (project;
          match goal with
          | |- context [match ?x with _ => _ end] =>
              lazymatch x with
              | context [match _ with _ => _ end] => fail
              | _ => destruct x eqn:?
              end
          end);
  project.

(** *** What leaves the content alone *)

Lemma same_content_refl (g : Game) : same_content g g.
Proof. unfold same_content. auto. Qed.

Lemma same_content_trans (g1 g2 g3 : Game) :
  same_content g1 g2 -> same_content g2 g3 -> same_content g1 g3.
Proof. unfold same_content. intuition congruence. Qed.

Lemma same_content_shuffled (g g' : Game) :
  same_content g g' -> shuffled_of g' = shuffled_of g.
Proof. unfold same_content, shuffled_of. intros (-> & _ & -> & _). reflexivity. Qed.

Lemma same_content_activities (g g' : Game) :
  same_content g g' -> activities_of g' = activities_of g.
Proof. unfold same_content, activities_of. intros (-> & -> & _). reflexivity. Qed.

Lemma handle_same_content (ev : Event) (g : Game) :
  same_content g (handle ev g).
Proof.
  destruct g, ev; script; split_cases; auto.
Qed.

Lemma run_same_content (evs : list Event) (g : Game) :
  same_content g (run evs g).
Proof.
  revert g. induction evs as [|ev evs IH]; intros g.
  - apply same_content_refl.
  - eapply same_content_trans; [apply (handle_same_content ev)|apply IH].
Qed.

Lemma run_cons (ev : Event) (evs : list Event) (g : Game) :
  run (ev :: evs) g = run evs (handle ev g).
Proof. reflexivity. Qed.

Lemma run_app (evs1 evs2 : list Event) (g : Game) :
  run (evs1 ++ evs2) g = run evs2 (run evs1 g).
Proof. unfold run. apply foldl_app. Qed.

Lemma sample_session_loaded :
  loadActivities sample_random (FetchOk sample_activities) sample_page
  = Some sample_session.
Proof. vm_compute. reflexivity. Qed.

Lemma sample_session_reachable : reachable sample_random sample_session.
Proof.
  eapply reach_load; [|exact sample_session_loaded].
  change sample_page
    with (set_localStorage None
            (set_currentLanguage "en"
               (set_translations sample_translations start))).
  apply reach_translations, reach_start.
Qed.

Lemma sample_session_order :
  shuffled_of sample_session = [plan_week; answer_phone; pay_bill].
Proof. vm_compute. reflexivity. Qed.

Lemma sample_session_fresh : fresh_session sample_session.
Proof.
  unfold fresh_session, in_session. rewrite sample_session_order.
  repeat split; vm_compute; lia.
Qed.

(** *** Answering and the score *)

Lemma resetGame_score (g : Game) : score (resetGame g) = 0%Z.
Proof. destruct g; script; split_cases; reflexivity. Qed.

Lemma runTimer_score (g : Game) : score (runTimer g) = score g.
Proof. destruct g; script; split_cases; reflexivity. Qed.

Lemma changeLanguage_score (language : string) (g : Game) :
  score (changeLanguage language g)
  = if decide (is_Some (translations g !! language)) then 0%Z else score g.
Proof.
  destruct (translations g !! language) eqn:Ht.
  - rewrite decide_True by eauto.
    unfold changeLanguage. rewrite Ht. destruct g; script; split_cases; reflexivity.
  - rewrite decide_False by (intros [? ?]; congruence).
    unfold changeLanguage. rewrite Ht. reflexivity.
Qed.

Lemma startGame_score (g : Game) : score (startGame g) = score g.
Proof. destruct g; script; split_cases; reflexivity. Qed.

Lemma adopt_score (random : nat -> Q) (data : list Activity) (g g1 : Game) :
  adopt random data g = Some g1 -> score g1 = score g.
Proof.
  unfold adopt.
  destruct (Runtime.bind _ _ (runtime g)) as [[[loaded shuffled] rt]|];
    [|discriminate].
  intros [= <-]. rewrite startGame_score. reflexivity.
Qed.

Lemma loadActivities_score (random : nat -> Q) (r : FetchResult) (g g1 : Game) :
  loadActivities random r g = Some g1 -> score g1 = score g.
Proof.
  assert (Hfailed : forall message,
             loadFailed random message g = Some g1 -> score g1 = score g).
  { intros message. unfold loadFailed, useEmbeddedData.
    destruct (_ || _); [apply adopt_score|].
    intros [= <-]. reflexivity. }
  destruct r as [data|message]; cbn [loadActivities]; [|apply Hfailed].
  destruct (decide (length data = 0)); [apply Hfailed|apply adopt_score].
Qed.

(** C1 (as the script has it). In a state with a current activity,
    [selectQuadrant] ends normally, reports a correct answer exactly when
    the selected string equals the activity's [correctQuadrant], and adds 1
    to the score when it does and nothing otherwise. Of the other
    operations, a timer firing and the loading of activities leave the
    score alone, while [resetGame] and a language change to a supported
    language set it to 0. *)
Theorem selectQuadrant_score (g : Game) (a : Activity) (q : string) :
  currentItem g = Some a ->
  let g' := snd (selectQuadrant (Some q) g) in
  fst (selectQuadrant (Some q) g) = Normal
  /\ (feedbackEl g' = FeedbackSuccess <-> q = correctQuadrant a)
  /\ (feedbackEl g' = FeedbackError <-> q <> correctQuadrant a)
  /\ (q = correctQuadrant a -> score g' = (score g + 1)%Z)
  /\ (q <> correctQuadrant a -> score g' = score g)
  /\ scoreEl g' = (if decide (q = correctQuadrant a) then score g' else scoreEl g)
  /\ score (handle TimerFires g) = score g
  /\ score (handle PlayAgain g) = 0%Z
  /\ (forall language,
        score (handle (LanguageSelected language) g)
        = if decide (is_Some (translations g !! language)) then 0%Z else score g)
  /\ (forall random r g1, loadActivities random r g = Some g1 -> score g1 = score g).
Proof.
  intros Hcur. unfold currentItem in Hcur. cbv zeta.
  assert (Hlater :
    score (handle TimerFires g) = score g
    /\ score (handle PlayAgain g) = 0%Z
    /\ (forall language,
          score (handle (LanguageSelected language) g)
          = if decide (is_Some (translations g !! language)) then 0%Z else score g)
    /\ (forall random r g1, loadActivities random r g = Some g1 -> score g1 = score g)).
  { split; [apply runTimer_score|]. split; [apply resetGame_score|].
    split; [intros; apply changeLanguage_score|].
    intros random r g1. apply loadActivities_score. }
  unfold selectQuadrant. rewrite Hcur.
  destruct (decide (q = correctQuadrant a)) as [Heq|Hne].
  - rewrite bool_decide_eq_true_2 by congruence.
    destruct g; script. repeat split; try tauto; try congruence; apply Hlater.
  - rewrite bool_decide_eq_false_2 by congruence.
    destruct g; script. repeat split; try tauto; try congruence; apply Hlater.
Qed.

Lemma selectQuadrant_score_witness :
  let g' := snd (selectQuadrant (Some "q2") sample_session) in
  fst (selectQuadrant (Some "q2") sample_session) = Normal
  /\ (feedbackEl g' = FeedbackSuccess <-> "q2" = correctQuadrant plan_week)
  /\ (feedbackEl g' = FeedbackError <-> "q2" <> correctQuadrant plan_week)
  /\ ("q2" = correctQuadrant plan_week -> score g' = (score sample_session + 1)%Z)
  /\ ("q2" <> correctQuadrant plan_week -> score g' = score sample_session)
  /\ scoreEl g' = (if decide ("q2" = correctQuadrant plan_week)
                   then score g' else scoreEl sample_session)
  /\ score (handle TimerFires sample_session) = score sample_session
  /\ score (handle PlayAgain sample_session) = 0%Z
  /\ (forall language,
        score (handle (LanguageSelected language) sample_session)
        = if decide (is_Some (translations sample_session !! language))
          then 0%Z else score sample_session)
  /\ (forall random r g1,
        loadActivities random r sample_session = Some g1 ->
        score g1 = score sample_session).
Proof.
  apply (selectQuadrant_score sample_session plan_week "q2").
  vm_compute. reflexivity.
Defined.

(** C1 (as stated) fails: [resetGame] writes the score too. After one right
    answer the score is 1, and "Play Again" makes it 0. *)
Lemma resetGame_writes_score : ~ only_answers_write_score sample_random.
Proof.
  intros H.
  specialize (H (handle (Click "q2") sample_session) PlayAgain
                (reach_event _ _ _ sample_session_reachable) eq_refl).
  vm_compute in H. discriminate H.
Qed.

(** *** Content resolution *)

Lemma displayActivity_in_range (index : nat) (g : Game) (a : Activity) :
  shuffled_of g !! index = Some a ->
  currentActivityIndex (displayActivity index g) = index
  /\ currentActivityEl (displayActivity index g) = presents a (currentLanguage g)
  /\ progressEl (displayActivity index g) = Some (index + 1, totalActivities g)
  /\ feedbackEl (displayActivity index g) = FeedbackHidden
  /\ score (displayActivity index g) = score g
  /\ timers (displayActivity index g) = timers g
  /\ timeMatrix (displayActivity index g) = timeMatrix g
  /\ currentLanguage (displayActivity index g) = currentLanguage g
  /\ translations (displayActivity index g) = translations g
  /\ localStorage (displayActivity index g) = localStorage g
  /\ scoreEl (displayActivity index g) = scoreEl g.
Proof.
  intros H. unfold displayActivity. rewrite H.
  destruct g; script. repeat split.
Qed.

(** C5 (as the script has it). [displayActivity] shows, for a description
    with one text per language, the text of the active language when that
    text exists and is not the empty string, and otherwise the [en] text;
    a plain string is shown as it is, whatever the active language. *)
Theorem activityText_resolution (g : Game) (index : nat) (a : Activity) :
  shuffled_of g !! index = Some a ->
  currentActivityEl (displayActivity index g)
  = ActivityText (activityText (description a) (currentLanguage g))
  /\ (forall lang,
        match description a with
        | PlainText text => activityText (description a) lang = Some text
        | LocalizedText texts =>
            (forall s, texts !! lang = Some s -> s <> "" ->
                       activityText (description a) lang = Some s)
            /\ (texts !! lang = None \/ texts !! lang = Some "" ->
                activityText (description a) lang = texts !! "en")
        end).
Proof.
  intros H. split.
  - apply (displayActivity_in_range index g a H).
  - intros lang. destruct (description a) as [text|texts]; cbn.
    + reflexivity.
    + split.
      * intros s -> Hs. cbn. rewrite decide_False by assumption. reflexivity.
      * intros [-> | ->]; reflexivity.
Qed.

Lemma activityText_resolution_witness :
  currentActivityEl (displayActivity 1 sample_session)
  = ActivityText (activityText (description answer_phone)
                    (currentLanguage sample_session))
  /\ (forall lang,
        match description answer_phone with
        | PlainText text => activityText (description answer_phone) lang = Some text
        | LocalizedText texts =>
            (forall s, texts !! lang = Some s -> s <> "" ->
                       activityText (description answer_phone) lang = Some s)
            /\ (texts !! lang = None \/ texts !! lang = Some "" ->
                activityText (description answer_phone) lang = texts !! "en")
        end).
Proof.
  apply (activityText_resolution sample_session 1 answer_phone).
  vm_compute. reflexivity.
Defined.

Example activityText_fallback :
  activityText (description answer_phone) "pt" = Some "Answer a ringing phone"
  /\ activityText (description plan_week) "pt" = Some "Planejar as refeições da semana"
  /\ activityText (description pay_bill) "pt" = Some "Pay the bill that is due today".
Proof. repeat split; vm_compute; reflexivity. Qed.

(** C5 (as stated) fails: a text that is present but empty is passed over
    in favour of the [en] text, because [||] treats the empty string like
    a missing one. *)
Lemma empty_text_falls_back : ~ present_language_wins.
Proof.
  intros H. specialize (H half_translated "pt" "" eq_refl).
  vm_compute in H. discriminate H.
Qed.

(** *** Switching the language *)



(** *** Answers outside a running game *)

(** The listener passes the keys "1" to "4" on and ignores the others. *)
Example keydown_keys :
  keydown "5" sample_session = (Normal, sample_session)
  /\ keydown "Enter" sample_session = (Normal, sample_session)
  /\ keydown "2" sample_session = selectQuadrant (Some "q2") sample_session
  /\ score (snd (keydown "2" sample_session)) = 1%Z.
Proof. repeat split; vm_compute; reflexivity. Qed.

(** C8, evaluated where the script departs from it. Once the sample
    session is complete (final screen 3 / 3, 100%, matrix hidden), the key
    "1" is still handed to [selectQuadrant], which judges the last activity
    once more: it ends normally, raises the score to 4 and schedules
    another advance, whose firing renders 4 / 3 and 133%. Before any
    content is loaded the same key ends in a [TypeError]. *)
Theorem keydown_after_completion :
  currentActivityEl sample_finished = GameComplete 3 3 (Some 100%Z)
  /\ timeMatrix sample_finished = DisplayNone
  /\ currentItem sample_finished = Some pay_bill
  /\ fst (keydown "1" sample_finished) = Normal
  /\ score (snd (keydown "1" sample_finished)) = 4%Z
  /\ feedbackEl (snd (keydown "1" sample_finished)) = FeedbackSuccess
  /\ timers (snd (keydown "1" sample_finished)) = [CallShowNextActivity]
  /\ currentActivityEl (run [KeyDown "1"; TimerFires] sample_finished)
     = GameComplete 4 3 (Some 133%Z)
  /\ keydown "1" sample_page = (TypeError, sample_page).
Proof. repeat split; vm_compute; reflexivity. Qed.

(** *** Restarting *)

Lemma in_session_first (g : Game) :
  in_session g -> exists first, shuffled_of g !! 0 = Some first.
Proof.
  intros (Hlen & _). apply lookup_lt_is_Some_2. assumption.
Qed.

Lemma resetGame_in_session (g : Game) (first : Activity) :
  in_session g -> shuffled_of g !! 0 = Some first ->
  score (resetGame g) = 0%Z
  /\ currentActivityIndex (resetGame g) = 0
  /\ currentActivityEl (resetGame g) = presents first (currentLanguage g)
  /\ timeMatrix (resetGame g) = DisplayGrid
  /\ feedbackEl (resetGame g) = FeedbackHidden
  /\ timers (resetGame g) = timers g
  /\ currentLanguage (resetGame g) = currentLanguage g.
Proof.
  intros (Hlen & Hact & _) Hfirst. unfold resetGame, startGame.
  rewrite decide_False.
  2:{ change (length (activities_of g) <> 0). lia. }
  cbv zeta.
  match goal with |- context [displayActivity 0 ?h] =>
    destruct (displayActivity_in_range 0 h first Hfirst)
      as (-> & -> & _ & -> & -> & -> & -> & -> & _)
  end.
  repeat split.
Qed.

Lemma changeLanguage_in_session (g : Game) (first : Activity)
    (language : string) :
  in_session g -> shuffled_of g !! 0 = Some first ->
  is_Some (translations g !! language) ->
  score (changeLanguage language g) = 0%Z
  /\ currentActivityIndex (changeLanguage language g) = 0
  /\ currentActivityEl (changeLanguage language g) = presents first language
  /\ timeMatrix (changeLanguage language g) = DisplayGrid
  /\ feedbackEl (changeLanguage language g) = FeedbackHidden
  /\ timers (changeLanguage language g) = timers g
  /\ currentLanguage (changeLanguage language g) = language
  /\ localStorage (changeLanguage language g) = Some language.
Proof.
  intros (Hlen & Hact & _) Hfirst [t Ht]. unfold changeLanguage. rewrite Ht.
  unfold resetGameToLanguage. cbv zeta.
  rewrite decide_True.
  2:{ change (0 < length (activities_of g)). lia. }
  match goal with |- context [displayActivity 0 ?h] =>
    destruct (displayActivity_in_range 0 h first Hfirst)
      as (-> & -> & _ & -> & -> & -> & -> & -> & _ & -> & _)
  end.
  repeat split.
Qed.

(** C3 (as the script has it). On a loaded session, [resetGame] and a
    change to a supported language both set score and position to 0, show
    the matrix and present the first item of the order. The order itself
    is the one the session already had: neither of them calls
    [shuffleArray], no random number is drawn, and the arrays are left as
    they were. *)
Theorem restart_keeps_order (g : Game) (first : Activity) (language : string) :
  in_session g ->
  shuffled_of g !! 0 = Some first ->
  is_Some (translations g !! language) ->
  (score (resetGame g) = 0%Z
   /\ currentActivityIndex (resetGame g) = 0
   /\ currentItem (resetGame g) = Some first
   /\ currentActivityEl (resetGame g) = presents first (currentLanguage g)
   /\ timeMatrix (resetGame g) = DisplayGrid
   /\ shuffled_of (resetGame g) = shuffled_of g
   /\ runtime (resetGame g) = runtime g)
  /\ (score (changeLanguage language g) = 0%Z
      /\ currentActivityIndex (changeLanguage language g) = 0
      /\ currentItem (changeLanguage language g) = Some first
      /\ currentActivityEl (changeLanguage language g) = presents first language
      /\ timeMatrix (changeLanguage language g) = DisplayGrid
      /\ currentLanguage (changeLanguage language g) = language
      /\ localStorage (changeLanguage language g) = Some language
      /\ shuffled_of (changeLanguage language g) = shuffled_of g
      /\ runtime (changeLanguage language g) = runtime g).
Proof.
  intros Hin Hfirst Hlang.
  pose proof (handle_same_content PlayAgain g) as Hr.
  pose proof (handle_same_content (LanguageSelected language) g) as Hc.
  cbn [handle] in Hr, Hc.
  pose proof (same_content_shuffled _ _ Hr) as Hsr.
  pose proof (same_content_shuffled _ _ Hc) as Hsc.
  destruct (resetGame_in_session g first Hin Hfirst)
    as (Hs & Hi & Hscr & Hm & _).
  destruct (changeLanguage_in_session g first language Hin Hfirst Hlang)
    as (Hs' & Hi' & Hscr' & Hm' & _ & _ & Hl' & Hst').
  split.
  - unfold currentItem. rewrite Hi, Hsr. repeat split; try assumption. apply Hr.
  - unfold currentItem. rewrite Hi', Hsc. repeat split; try assumption. apply Hc.
Qed.

Lemma restart_keeps_order_witness :
  (score (resetGame sample_finished) = 0%Z
   /\ currentActivityIndex (resetGame sample_finished) = 0
   /\ currentItem (resetGame sample_finished) = Some plan_week
   /\ currentActivityEl (resetGame sample_finished)
      = presents plan_week (currentLanguage sample_finished)
   /\ timeMatrix (resetGame sample_finished) = DisplayGrid
   /\ shuffled_of (resetGame sample_finished) = shuffled_of sample_finished
   /\ runtime (resetGame sample_finished) = runtime sample_finished)
  /\ (score (changeLanguage "pt" sample_finished) = 0%Z
      /\ currentActivityIndex (changeLanguage "pt" sample_finished) = 0
      /\ currentItem (changeLanguage "pt" sample_finished) = Some plan_week
      /\ currentActivityEl (changeLanguage "pt" sample_finished)
         = presents plan_week "pt"
      /\ timeMatrix (changeLanguage "pt" sample_finished) = DisplayGrid
      /\ currentLanguage (changeLanguage "pt" sample_finished) = "pt"
      /\ localStorage (changeLanguage "pt" sample_finished) = Some "pt"
      /\ shuffled_of (changeLanguage "pt" sample_finished)
         = shuffled_of sample_finished
      /\ runtime (changeLanguage "pt" sample_finished) = runtime sample_finished).
Proof.
  apply (restart_keeps_order sample_finished plan_week "pt").
  - unfold in_session. repeat split; vm_compute; lia.
  - vm_compute. reflexivity.
  - eexists. vm_compute. reflexivity.
Defined.

(** C3 (as stated) fails. The sample session plays in the order
    [plan_week; answer_phone; pay_bill]; a new shuffle of the loaded
    activities with the next random numbers would give
    [plan_week; pay_bill; answer_phone], but after [resetGame] the order is
    the old one. *)
Lemma resetGame_does_not_reshuffle : ~ restart_reshuffles sample_random.
Proof.
  intros H.
  destruct (H sample_session "pt" sample_session_reachable
              (proj1 sample_session_fresh)) as [Hreset _].
  { eexists. vm_compute. reflexivity. }
  destruct Hreset as (elems & copy & rt1 & shuffled & rt2 & order
                      & He & Ha & Hs & Ho & Hsame).
  vm_compute in He. injection He as <-.
  vm_compute in Ha. injection Ha as <- <-.
  vm_compute in Hs. injection Hs as <- <-.
  vm_compute in Ho. injection Ho as <-.
  vm_compute in Hsame. discriminate Hsame.
Qed.

(** *** Sessions *)

Lemma handle_in_session (ev : Event) (g : Game) :
  in_session g -> in_session (handle ev g).
Proof.
  intros (Hlen & Hact & Htot & Hidx).
  pose proof (handle_same_content ev g) as Hsame.
  unfold in_session.
  rewrite (same_content_shuffled _ _ Hsame), (same_content_activities _ _ Hsame).
  destruct Hsame as (_ & _ & _ & ->).
  repeat split; try assumption.
  clear Hact Htot.
  destruct ev; script; split_cases;
    try assumption; try lia;
    match goal with
    | H : _ !! ?i = Some _ |- ?i < _ => exact (lookup_lt_Some _ _ _ H)
    end.
Qed.

Lemma run_in_session (evs : list Event) (g : Game) :
  in_session g -> in_session (run evs g).
Proof.
  revert g. induction evs as [|ev evs IH]; intros g Hin; [assumption|].
  apply IH, handle_in_session, Hin.
Qed.

Lemma in_session_current (g : Game) :
  in_session g -> exists a, currentItem g = Some a.
Proof.
  intros (_ & _ & _ & Hidx). apply lookup_lt_is_Some_2. assumption.
Qed.

Lemma selectQuadrant_current (q : option string) (g : Game) (a : Activity) :
  currentItem g = Some a ->
  fst (selectQuadrant q g) = Normal
  /\ timers (snd (selectQuadrant q g)) = timers g ++ [CallShowNextActivity]
  /\ currentActivityIndex (snd (selectQuadrant q g)) = currentActivityIndex g
  /\ currentActivityEl (snd (selectQuadrant q g)) = currentActivityEl g
  /\ currentLanguage (snd (selectQuadrant q g)) = currentLanguage g
  /\ (score g <= score (snd (selectQuadrant q g)) <= score g + 1)%Z.
Proof.
  unfold currentItem. intros H. unfold selectQuadrant. rewrite H.
  script. split_cases; repeat split; lia.
Qed.

Lemma selectQuadrant_no_item (q : option string) (g : Game) :
  currentItem g = None -> selectQuadrant q g = (TypeError, g).
Proof.
  unfold currentItem. intros H. unfold selectQuadrant. rewrite H. reflexivity.
Qed.

Lemma showNextActivity_next (g : Game) (a : Activity) :
  shuffled_of g !! (currentActivityIndex g + 1) = Some a ->
  currentActivityIndex (showNextActivity g) = currentActivityIndex g + 1
  /\ currentActivityEl (showNextActivity g) = presents a (currentLanguage g)
  /\ score (showNextActivity g) = score g
  /\ timers (showNextActivity g) = timers g
  /\ currentLanguage (showNextActivity g) = currentLanguage g.
Proof.
  intros H. unfold showNextActivity. cbv zeta.
  rewrite decide_False by (apply lookup_lt_Some in H; lia).
  destruct (displayActivity_in_range _ g a H)
    as (-> & -> & _ & _ & -> & -> & _ & -> & _).
  repeat split.
Qed.

Lemma showNextActivity_last (g : Game) :
  length (shuffled_of g) <= currentActivityIndex g + 1 ->
  showNextActivity g = endGame g.
Proof.
  intros H. unfold showNextActivity. cbv zeta.
  rewrite decide_True by assumption. reflexivity.
Qed.

Lemma handle_timers_kept (ev : Event) (g : Game) :
  ev <> TimerFires -> exists new, timers (handle ev g) = timers g ++ new.
Proof.
  intros Hev. destruct ev; try congruence; script; split_cases;
    try (exists []; rewrite app_nil_r; reflexivity);
    eexists; reflexivity.
Qed.

Lemma handle_timer_removed (g : Game) :
  timers (handle TimerFires g) = tail (timers g).
Proof.
  script. split_cases; try reflexivity; subst; reflexivity.
Qed.

Lemma handle_score_mono (ev : Event) (g : Game) :
  plays ev = true -> (score g <= score (handle ev g))%Z.
Proof.
  destruct ev; try discriminate; intros _; script; split_cases; lia.
Qed.

(** *** Pending advances *)

Lemma runTimer_pending (g : Game) (rest : list Callback) :
  timers g = CallShowNextActivity :: rest ->
  runTimer g = showNextActivity (set_timers rest g).
Proof. unfold runTimer. intros ->. reflexivity. Qed.

Lemma runTimer_next (g : Game) (rest : list Callback) (a : Activity) :
  timers g = CallShowNextActivity :: rest ->
  shuffled_of g !! (currentActivityIndex g + 1) = Some a ->
  currentActivityIndex (runTimer g) = currentActivityIndex g + 1
  /\ currentActivityEl (runTimer g) = presents a (currentLanguage g)
  /\ score (runTimer g) = score g
  /\ timers (runTimer g) = rest
  /\ currentLanguage (runTimer g) = currentLanguage g.
Proof.
  intros Ht Ha. rewrite (runTimer_pending g rest Ht).
  destruct (showNextActivity_next (set_timers rest g) a Ha)
    as (-> & -> & -> & -> & ->).
  repeat split.
Qed.

Lemma timers_fire (m : nat) :
  forall g : Game,
    m <= length (timers g) ->
    currentActivityIndex g + m < length (shuffled_of g) ->
    currentActivityIndex (run (replicate m TimerFires) g) = currentActivityIndex g + m
    /\ timers (run (replicate m TimerFires) g) = drop m (timers g)
    /\ score (run (replicate m TimerFires) g) = score g
    /\ currentLanguage (run (replicate m TimerFires) g) = currentLanguage g
    /\ (0 < m -> forall a,
          shuffled_of g !! (currentActivityIndex g + m) = Some a ->
          currentActivityEl (run (replicate m TimerFires) g)
          = presents a (currentLanguage g)).
Proof.
  induction m as [|m IH]; intros g Hm Hidx.
  - cbn. rewrite Nat.add_0_r, drop_0. repeat split. lia.
  - replace (S m) with (m + 1) by lia.
    rewrite replicate_add, run_app.
    destruct (IH g ltac:(lia) ltac:(lia)) as (Hi & Ht & Hs & Hl & _).
    set (g1 := run (replicate m TimerFires) g) in *.
    assert (Hsh : shuffled_of g1 = shuffled_of g)
      by (apply same_content_shuffled, run_same_content).
    destruct (lookup_lt_is_Some_2 (shuffled_of g) (currentActivityIndex g + (m + 1))
                ltac:(lia)) as [a Ha].
    assert (Hnext : timers g1 = CallShowNextActivity :: drop (m + 1) (timers g)).
    { rewrite Ht. replace (m + 1) with (S m) by lia.
      destruct (lookup_lt_is_Some_2 (timers g) m ltac:(lia)) as [[] Hcb].
      apply drop_S. assumption. }
    destruct (runTimer_next g1 _ a Hnext) as (Hi' & Hscr' & Hs' & Ht' & Hl').
    { rewrite Hsh, Hi, <- Nat.add_assoc. exact Ha. }
    change (run (replicate 1 TimerFires) g1) with (runTimer g1).
    rewrite Hi', Hscr', Hs', Ht', Hl', Hi, Hs, Hl.
    repeat split; try lia.
    intros _ b Hb. congruence.
Qed.

Lemma clicks_queue (clicks : list string) :
  forall g : Game,
    in_session g ->
    currentActivityIndex (run (map Click clicks) g) = currentActivityIndex g
    /\ timers (run (map Click clicks) g)
       = timers g ++ replicate (length clicks) CallShowNextActivity
    /\ currentActivityEl (run (map Click clicks) g) = currentActivityEl g
    /\ currentLanguage (run (map Click clicks) g) = currentLanguage g.
Proof.
  induction clicks as [|q clicks IH]; intros g Hin.
  - cbn. rewrite app_nil_r. repeat split.
  - destruct (in_session_current g Hin) as [a Ha].
    destruct (selectQuadrant_current (Some q) g a Ha)
      as (_ & Ht & Hi & Hscr & Hl & _).
    change (snd (selectQuadrant (Some q) g)) with (handle (Click q) g) in *.
    destruct (IH (handle (Click q) g) (handle_in_session _ _ Hin))
      as (Hi' & Ht' & Hscr' & Hl').
    change (map Click (q :: clicks)) with (Click q :: map Click clicks).
    rewrite run_cons, Hi', Ht', Hscr', Hl', Hi, Ht, Hscr, Hl, <- app_assoc.
    repeat split.
Qed.

(** C9 (as the script has it). The callbacks that wait for their delay
    are neither cancelled nor marked by [resetGame] or a language change:
    both leave the list of pending callbacks as it is. A callback that was
    scheduled before the restart therefore runs [showNextActivity] on the
    restarted session when it fires, and moves its position from 0 to 1
    (the order having at least two items). *)
Theorem stale_advance_applies (g : Game) (language : string)
    (rest : list Callback) :
  in_session g ->
  2 <= length (shuffled_of g) ->
  timers g = CallShowNextActivity :: rest ->
  is_Some (translations g !! language) ->
  (timers (resetGame g) = timers g
   /\ currentActivityIndex (resetGame g) = 0
   /\ currentActivityIndex (handle TimerFires (resetGame g)) = 1
   /\ currentItem (handle TimerFires (resetGame g)) = shuffled_of g !! 1
   /\ timers (handle TimerFires (resetGame g)) = rest)
  /\ (timers (changeLanguage language g) = timers g
      /\ currentActivityIndex (changeLanguage language g) = 0
      /\ currentActivityIndex (handle TimerFires (changeLanguage language g)) = 1
      /\ currentItem (handle TimerFires (changeLanguage language g))
         = shuffled_of g !! 1
      /\ timers (handle TimerFires (changeLanguage language g)) = rest).
Proof.
  intros Hin Hlen Htimers Hlang.
  destruct (in_session_first g Hin) as [first Hfirst].
  destruct (lookup_lt_is_Some_2 (shuffled_of g) 1 ltac:(lia)) as [second Hsecond].
  assert (Hfire : forall h,
             same_content g h -> timers h = timers g ->
             currentActivityIndex h = 0 ->
             currentActivityIndex (handle TimerFires h) = 1
             /\ currentItem (handle TimerFires h) = shuffled_of g !! 1
             /\ timers (handle TimerFires h) = rest).
  { intros h Hsame Ht Hi.
    pose proof (same_content_shuffled _ _ Hsame) as Hsh.
    pose proof (handle_same_content TimerFires h) as Hsame'.
    apply same_content_shuffled in Hsame'.
    unfold currentItem. rewrite Hsame', Hsh. cbn [handle].
    destruct (runTimer_next h rest second) as (Hi' & _ & _ & Ht' & _).
    { rewrite Ht. exact Htimers. }
    { rewrite Hsh, Hi. exact Hsecond. }
    rewrite Hi', Ht', Hi. repeat split. }
  destruct (resetGame_in_session g first Hin Hfirst)
    as (_ & Hi & _ & _ & _ & Ht & _).
  destruct (changeLanguage_in_session g first language Hin Hfirst Hlang)
    as (_ & Hi' & _ & _ & _ & Ht' & _).
  split.
  - split; [assumption|]. split; [assumption|].
    apply Hfire; try assumption. apply (handle_same_content PlayAgain).
  - split; [assumption|]. split; [assumption|].
    apply Hfire; try assumption.
    apply (handle_same_content (LanguageSelected language)).
Qed.

Lemma stale_advance_applies_witness :
  (timers (resetGame (handle (Click "q1") sample_session))
   = timers (handle (Click "q1") sample_session)
   /\ currentActivityIndex (resetGame (handle (Click "q1") sample_session)) = 0
   /\ currentActivityIndex
        (handle TimerFires (resetGame (handle (Click "q1") sample_session))) = 1
   /\ currentItem
        (handle TimerFires (resetGame (handle (Click "q1") sample_session)))
      = shuffled_of (handle (Click "q1") sample_session) !! 1
   /\ timers (handle TimerFires (resetGame (handle (Click "q1") sample_session)))
      = [])
  /\ (timers (changeLanguage "pt" (handle (Click "q1") sample_session))
      = timers (handle (Click "q1") sample_session)
      /\ currentActivityIndex
           (changeLanguage "pt" (handle (Click "q1") sample_session)) = 0
      /\ currentActivityIndex
           (handle TimerFires
              (changeLanguage "pt" (handle (Click "q1") sample_session))) = 1
      /\ currentItem
           (handle TimerFires
              (changeLanguage "pt" (handle (Click "q1") sample_session)))
         = shuffled_of (handle (Click "q1") sample_session) !! 1
      /\ timers
           (handle TimerFires
              (changeLanguage "pt" (handle (Click "q1") sample_session)))
         = []).
Proof.
  apply (stale_advance_applies (handle (Click "q1") sample_session) "pt" []).
  - unfold in_session. repeat split; vm_compute; lia.
  - vm_compute. lia.
  - vm_compute. reflexivity.
  - eexists. vm_compute. reflexivity.
Defined.

(** C9 (as stated) fails: answer, "Play Again", and the advance scheduled
    by the answer fires. It is applied to the restarted session, whose
    position goes from 0 to 1. *)
Lemma stale_advance_moves_new_session : ~ stale_advance_ignored sample_random.
Proof.
  intros H.
  specialize (H sample_session "q1" sample_session_reachable sample_session_fresh).
  vm_compute in H. discriminate H.
Qed.

(** C10 (as the script has it). A call of [selectQuadrant] that finds a
    current activity schedules one advance (without one it ends in a
    [TypeError] and schedules nothing). No handler other than the firing
    itself takes a callback off the list, and a firing takes off only the
    one that runs. So [k] answers to one item leave [k] more advances
    pending; as [m] of them fire (1 <= m <= k), the position moves on by
    [m], item after item: each item on the way is presented, and passed by
    the next firing without its score having been touched. *)
Theorem repeated_answers_advance (g : Game) (clicks : list string) (m : nat)
    (a : Activity) :
  in_session g ->
  currentActivityIndex g + length clicks < length (shuffled_of g) ->
  0 < m <= length clicks ->
  shuffled_of g !! (currentActivityIndex g + m) = Some a ->
  let g1 := run (map Click clicks) g in
  let g2 := run (replicate m TimerFires) g1 in
  timers g1 = timers g ++ replicate (length clicks) CallShowNextActivity
  /\ currentActivityIndex g1 = currentActivityIndex g
  /\ (forall q h, currentItem h = None -> selectQuadrant q h = (TypeError, h))
  /\ (forall ev h, ev <> TimerFires ->
                   exists new, timers (handle ev h) = timers h ++ new)
  /\ (forall h, timers (handle TimerFires h) = tail (timers h))
  /\ currentActivityIndex g2 = currentActivityIndex g + m
  /\ currentItem g2 = Some a
  /\ currentActivityEl g2 = presents a (currentLanguage g)
  /\ score g2 = score g1
  /\ length (timers g2) = length (timers g) + length clicks - m.
Proof.
  intros Hin Hlen Hm Ha. cbv zeta.
  destruct (clicks_queue clicks g Hin) as (Hi & Ht & Hscr & Hl).
  set (g1 := run (map Click clicks) g) in *.
  assert (Hsh : shuffled_of g1 = shuffled_of g)
    by (apply same_content_shuffled, run_same_content).
  destruct (timers_fire m g1) as (Hi2 & Ht2 & Hs2 & Hl2 & Hscr2).
  { rewrite Ht, length_app, length_replicate. lia. }
  { rewrite Hi, Hsh. lia. }
  set (g2 := run (replicate m TimerFires) g1) in *.
  assert (Hsh2 : shuffled_of g2 = shuffled_of g).
  { rewrite <- Hsh. apply same_content_shuffled, run_same_content. }
  split; [assumption|]. split; [assumption|].
  split; [apply selectQuadrant_no_item|].
  split; [apply handle_timers_kept|].
  split; [apply handle_timer_removed|].
  split; [lia|].
  split; [unfold currentItem; rewrite Hsh2, Hi2, Hi; assumption|].
  split; [rewrite <- Hl; apply Hscr2; [lia|rewrite Hsh, Hi; assumption]|].
  split; [assumption|].
  rewrite Ht2, length_drop, Ht, length_app, length_replicate. lia.
Qed.

Lemma repeated_answers_advance_witness :
  let g1 := run (map Click ["q4"; "q4"]) sample_session in
  let g2 := run (replicate 1 TimerFires) g1 in
  timers g1
  = timers sample_session ++ replicate (length ["q4"; "q4"]) CallShowNextActivity
  /\ currentActivityIndex g1 = currentActivityIndex sample_session
  /\ (forall q h, currentItem h = None -> selectQuadrant q h = (TypeError, h))
  /\ (forall ev h, ev <> TimerFires ->
                   exists new, timers (handle ev h) = timers h ++ new)
  /\ (forall h, timers (handle TimerFires h) = tail (timers h))
  /\ currentActivityIndex g2 = currentActivityIndex sample_session + 1
  /\ currentItem g2 = Some answer_phone
  /\ currentActivityEl g2 = presents answer_phone (currentLanguage sample_session)
  /\ score g2 = score g1
  /\ length (timers g2)
     = length (timers sample_session) + length ["q4"; "q4"] - 1.
Proof.
  apply (repeated_answers_advance sample_session ["q4"; "q4"] 1 answer_phone).
  - exact (proj1 sample_session_fresh).
  - vm_compute. lia.
  - vm_compute. lia.
  - vm_compute. reflexivity.
Defined.

(** C10 (as stated) fails in its last part: of three items, the first is
    answered twice; when the first of the two advances fires, the second
    item is the current one and is on the screen, although the position
    will end up on the third. *)
Lemma skipped_item_is_presented : ~ skipped_never_presented sample_random.
Proof.
  intros H.
  destruct (H sample_session ["q4"; "q4"] 1
              sample_session_reachable sample_session_fresh) as [Hi|Hi].
  - vm_compute. lia.
  - vm_compute. lia.
  - vm_compute in Hi. discriminate Hi.
  - vm_compute in Hi. discriminate Hi.
Qed.

Example skipped_item_on_screen :
  currentActivityEl
    (run (map Click ["q4"; "q4"] ++ replicate 1 TimerFires) sample_session)
  = ActivityText (Some "Answer a ringing phone")
  /\ currentActivityIndex
       (run (map Click ["q4"; "q4"] ++ replicate 2 TimerFires) sample_session)
     = 2.
Proof. split; vm_compute; reflexivity. Qed.

(** *** Score and position *)

Lemma runTimer_last (g : Game) (rest : list Callback) :
  timers g = CallShowNextActivity :: rest ->
  length (shuffled_of g) <= currentActivityIndex g + 1 ->
  currentActivityIndex (runTimer g) = currentActivityIndex g
  /\ score (runTimer g) = score g
  /\ timers (runTimer g) = rest
  /\ currentActivityEl (runTimer g)
     = GameComplete (score g) (totalActivities g)
         (accuracy (score g) (totalActivities g))
  /\ timeMatrix (runTimer g) = DisplayNone.
Proof.
  intros Ht Hlast. rewrite (runTimer_pending g rest Ht).
  rewrite showNextActivity_last by exact Hlast.
  repeat split.
Qed.

Lemma answer_and_advance_step (q : string) (g : Game) :
  in_session g -> timers g = [] ->
  timers (run [Click q; TimerFires] g) = []
  /\ (score g <= score (run [Click q; TimerFires] g) <= score g + 1)%Z
  /\ currentActivityIndex (run [Click q; TimerFires] g)
     = Nat.min (currentActivityIndex g + 1) (length (shuffled_of g) - 1).
Proof.
  intros Hin Ht.
  destruct (in_session_current g Hin) as [a Ha].
  destruct (selectQuadrant_current (Some q) g a Ha)
    as (_ & Ht1 & Hi1 & _ & _ & Hs1).
  change (snd (selectQuadrant (Some q) g)) with (handle (Click q) g) in *.
  pose proof (handle_same_content (Click q) g) as Hsame.
  apply same_content_shuffled in Hsame.
  destruct Hin as (_ & _ & _ & Hidx).
  change (run [Click q; TimerFires] g) with (runTimer (handle (Click q) g)).
  set (g1 := handle (Click q) g) in *.
  rewrite Ht in Ht1. cbn [app] in Ht1.
  destruct (decide (currentActivityIndex g + 1 < length (shuffled_of g))) as [Hlt|Hge].
  - destruct (lookup_lt_is_Some_2 _ _ Hlt) as [b Hb].
    destruct (runTimer_next g1 [] b Ht1) as (Hi' & _ & Hs' & Ht' & _).
    { rewrite Hsame, Hi1. exact Hb. }
    rewrite Hi', Hs', Ht', Hi1. repeat split; lia.
  - destruct (runTimer_last g1 [] Ht1) as (Hi' & Hs' & Ht' & _).
    { rewrite Hsame, Hi1. lia. }
    rewrite Hi', Hs', Ht', Hi1. repeat split; lia.
Qed.

Lemma answer_and_advance_run (answers : list string) :
  forall g : Game,
    in_session g -> timers g = [] ->
    timers (run (answer_and_advance answers) g) = []
    /\ (score g <= score (run (answer_and_advance answers) g)
        <= score g + Z.of_nat (length answers))%Z
    /\ currentActivityIndex (run (answer_and_advance answers) g)
       = Nat.min (currentActivityIndex g + length answers)
                 (length (shuffled_of g) - 1).
Proof.
  induction answers as [|q answers IH]; intros g Hin Ht.
  - cbn. destruct Hin as (_ & _ & _ & Hidx). repeat split; try lia. assumption.
  - change (answer_and_advance (q :: answers))
      with ([Click q; TimerFires] ++ answer_and_advance answers).
    rewrite run_app.
    destruct (answer_and_advance_step q g Hin Ht) as (Ht1 & Hs1 & Hi1).
    set (g1 := run [Click q; TimerFires] g) in *.
    assert (Hin1 : in_session g1) by (apply run_in_session; assumption).
    assert (Hsh : shuffled_of g1 = shuffled_of g)
      by (apply same_content_shuffled, run_same_content).
    destruct (IH g1 Hin1 Ht1) as (Ht2 & Hs2 & Hi2).
    rewrite Ht2, Hi2, Hsh, Hi1. cbn [length].
    repeat split; lia.
Qed.

Lemma run_score_nonneg (evs : list Event) :
  forall g : Game,
    forallb plays evs = true -> (0 <= score g)%Z -> (score g <= score (run evs g))%Z.
Proof.
  induction evs as [|ev evs IH]; intros g Hevs Hs; [cbn; lia|].
  cbn in Hevs. apply andb_prop in Hevs as [Hev Hevs].
  pose proof (handle_score_mono ev g Hev).
  cbn [run foldl]. specialize (IH (handle ev g) Hevs ltac:(lia)).
  unfold run in IH. lia.
Qed.

(** C2 (as the script has it). From a fresh session, over every sequence
    of answers and advances the score never decreases and never is
    negative. When every presented item is answered once and then
    advanced, the score after [k] such pairs is at most [k], for [k] up to
    the length of the order. [currentActivityIndex] equals [k] as long as
    [k] is less than the length of the order, and keeps the index of the
    last item when the last advance ends the game; so the score is within
    [currentActivityIndex] before the last item has been answered. *)
Theorem score_monotone_bounded (g : Game) (answers : list string) :
  fresh_session g ->
  length answers <= length (shuffled_of g) ->
  let g' := run (answer_and_advance answers) g in
  (0 <= score g' <= Z.of_nat (length answers))%Z
  /\ currentActivityIndex g'
     = Nat.min (length answers) (length (shuffled_of g) - 1)
  /\ (length answers < length (shuffled_of g) ->
      (score g' <= Z.of_nat (currentActivityIndex g'))%Z)
  /\ (forall evs ev,
        forallb plays (evs ++ [ev]) = true ->
        (0 <= score (run evs g) <= score (run (evs ++ [ev]) g))%Z).
Proof.
  intros (Hin & Hs & Hi & Ht) Hlen. cbv zeta.
  destruct (answer_and_advance_run answers g Hin Ht) as (_ & Hs' & Hi').
  rewrite Hs, Hi in *. cbn [Nat.add] in Hi'.
  split; [lia|]. split; [assumption|]. split; [lia|].
  intros evs ev Hplays. rewrite forallb_app in Hplays.
  apply andb_prop in Hplays as [Hevs Hev]. cbn in Hev.
  rewrite andb_true_r in Hev.
  pose proof (run_score_nonneg evs g Hevs ltac:(lia)).
  rewrite run_app. cbn [run foldl].
  pose proof (handle_score_mono ev (run evs g) Hev). unfold run in *. lia.
Qed.

Lemma score_monotone_bounded_witness :
  let g' := run (answer_and_advance ["q2"; "q1"]) sample_session in
  (0 <= score g' <= Z.of_nat (length ["q2"; "q1"]))%Z
  /\ currentActivityIndex g'
     = Nat.min (length ["q2"; "q1"]) (length (shuffled_of sample_session) - 1)
  /\ (length ["q2"; "q1"] < length (shuffled_of sample_session) ->
      (score g' <= Z.of_nat (currentActivityIndex g'))%Z)
  /\ (forall evs ev,
        forallb plays (evs ++ [ev]) = true ->
        (0 <= score (run evs sample_session)
         <= score (run (evs ++ [ev]) sample_session))%Z).
Proof.
  apply (score_monotone_bounded sample_session ["q2"; "q1"]).
  - exact sample_session_fresh.
  - vm_compute. lia.
Defined.

(** C2 (as stated) fails: three items, each answered correctly and
    advanced. The score is 3, and [currentActivityIndex] is 2, the index of
    the last item. *)
Lemma score_exceeds_position : ~ score_within_position sample_random.
Proof.
  intros H.
  specialize (H sample_session ["q2"; "q3"; "q1"]
                sample_session_reachable sample_session_fresh).
  vm_compute in H. apply H. reflexivity.
Qed.

(** *** Loading and completion *)

Lemma handle_without_content (ev : Event) (g : Game) :
  without_content g -> without_content (handle ev g).
Proof.
  intros (Ha & Hs & Htot & Ht & Hscr).
  destruct g, ev; script; subst;
    rewrite ?Ha, ?Hs; cbn [length lookup list_lookup];
    split_cases; try discriminate; try lia; repeat split; auto.
Qed.


Lemma handle_completion_sound (ev : Event) (g : Game) :
  in_session g -> completion_sound g -> completion_sound (handle ev g).
Proof.
  intros (Hlen & _ & Htot & _) Hsound s t acc.
  assert (Hacc : forall x, GameComplete x (totalActivities g)
                             (accuracy x (totalActivities g))
                           = GameComplete s t acc ->
                 t <> 0 /\ acc = accuracy s t).
  { intros x [= <- <- <-]. split; [lia|reflexivity]. }
  specialize (Hsound s t acc). clear Hlen Htot.
  destruct g, ev; script; split_cases; try discriminate;
    solve [ exact Hsound | apply Hacc ].
Qed.

Section Loaded.
Variable random : nat -> Q.
Hypothesis random_range : forall k, Runtime.unit_interval (random k).

(** What the loading statements leave behind, before [startGame] runs. *)
Lemma adopt_spec (data : list Activity) (g : Game) :
  exists g0 order,
    adopt random data g = Some (startGame g0)
    /\ activities_of g0 = data
    /\ shuffled_of g0 = order
    /\ order ≡ₚ data
    /\ totalActivities g0 = length data
    /\ score g0 = score g
    /\ timers g0 = timers g
    /\ currentActivityEl g0 = currentActivityEl g
    /\ translations g0 = translations g.
Proof.
  unfold adopt.
  set (heap0 := Runtime.heap (runtime g)).
  set (loaded := fresh (dom heap0)).
  set (heap1 := <[loaded := data]> heap0).
  set (copy := fresh (dom heap1)).
  set (heap2 := <[copy := data]> heap1).
  set (rt2 := Runtime.mk heap2 (Runtime.random_calls (runtime g))).
  assert (Hcopy : heap1 !! copy = None)
    by (apply not_elem_of_dom, is_fresh).
  destruct (ShuffleFacts.shuffleArray_spec random random_range rt2 copy data)
    as (shuffled & order & Hrun & Hnew & Hperm).
  { apply lookup_insert_eq. }
  assert (Hne : shuffled <> loaded).
  { intros ->. cbn in Hnew. unfold heap2 in Hnew.
    rewrite lookup_insert_ne in Hnew.
    - unfold heap1 in Hnew. rewrite lookup_insert_eq in Hnew. discriminate.
    - intros ->. unfold heap1 in Hcopy. rewrite lookup_insert_eq in Hcopy.
      discriminate. }
  assert (Hprog :
    Runtime.bind (Runtime.alloc data) (fun loaded =>
    Runtime.bind (Runtime.contents loaded) (fun elems =>
    Runtime.bind (Runtime.alloc elems) (fun copy =>
    Runtime.bind (Runtime.shuffleArray random copy) (fun shuffled =>
    Runtime.ret (loaded, shuffled))))) (runtime g)
    = Some ((loaded, shuffled),
            Runtime.mk (<[shuffled := order]> heap2)
              (Runtime.random_calls (runtime g) + (length data - 1)))).
  { unfold Runtime.bind at 1, Runtime.alloc at 1. fold heap0 loaded heap1.
    unfold Runtime.bind at 1, Runtime.contents at 1. cbn [Runtime.heap].
    unfold heap1 at 1. rewrite lookup_insert_eq.
    unfold Runtime.bind at 1, Runtime.alloc at 1.
    cbn [Runtime.heap Runtime.random_calls]. fold copy heap2 rt2.
    unfold Runtime.bind at 1. rewrite Hrun. reflexivity. }
  rewrite Hprog. eexists _, order. split; [reflexivity|].
  destruct g; unfold activities_of, shuffled_of. script. cbn [Runtime.heap].
  rewrite lookup_insert_eq, lookup_insert_ne by congruence.
  unfold heap2. rewrite lookup_insert_ne.
  2:{ intros ->. unfold heap1 in Hcopy. rewrite lookup_insert_eq in Hcopy.
      discriminate. }
  unfold heap1. rewrite lookup_insert_eq. repeat split. assumption.
Qed.

Lemma adopt_in_session (data : list Activity) (g g' : Game) :
  data <> [] ->
  adopt random data g = Some g' ->
  in_session g'
  /\ currentActivityIndex g' = 0
  /\ score g' = score g
  /\ timers g' = timers g
  /\ (exists first, currentActivityEl g' = presents first (currentLanguage g')).
Proof.
  intros Hdata Hadopt.
  destruct (adopt_spec data g)
    as (g0 & order & Hrun & Hact & Hsh & Hperm & Htot & Hs & Ht & _).
  rewrite Hrun in Hadopt. injection Hadopt as <-.
  assert (Hlen : length order = length data) by (apply Permutation_length, Hperm).
  assert (Hpos : 0 < length data) by (destruct data; [congruence|cbn; lia]).
  destruct (lookup_lt_is_Some_2 (shuffled_of g0) 0 ltac:(rewrite Hsh; lia))
    as [first Hfirst].
  unfold startGame. rewrite decide_False by (rewrite Hact; lia).
  destruct (displayActivity_in_range 0 g0 first Hfirst)
    as (Hi' & Hscr' & _ & _ & Hs' & Ht' & _ & Hl' & _).
  assert (Hsame : shuffled_of (displayActivity 0 g0) = shuffled_of g0
                  /\ activities_of (displayActivity 0 g0) = activities_of g0
                  /\ totalActivities (displayActivity 0 g0) = totalActivities g0).
  { unfold displayActivity. rewrite Hfirst. destruct g0; repeat split. }
  destruct Hsame as (Hsh' & Hact' & Htot').
  unfold in_session. rewrite Hsh', Hact', Htot', Hi', Hs', Ht', Hscr', Hl'.
  repeat split; try lia; try congruence. eauto.
Qed.

(** A session that starts from a page without score and without pending
    callbacks is fresh. *)
Lemma adopt_fresh (data : list Activity) (g g' : Game) :
  data <> [] -> score g = 0%Z -> timers g = [] ->
  adopt random data g = Some g' -> fresh_session g'.
Proof.
  intros Hdata Hs Ht Hadopt.
  destruct (adopt_in_session data g g' Hdata Hadopt) as (Hin & Hi & Hs' & Ht' & _).
  unfold fresh_session. rewrite Hs', Ht'. auto.
Qed.

Lemma loadFailed_cases (message : string) (g g' : Game) :
  loadFailed random message g = Some g' ->
  g' = set_currentActivityEl LoadError g \/ adopt random embeddedData g = Some g'.
Proof.
  unfold loadFailed, useEmbeddedData. destruct (_ || _); [auto|].
  intros [= <-]. auto.
Qed.

Lemma loadActivities_cases (r : FetchResult) (g g' : Game) :
  loadActivities random r g = Some g' ->
  g' = set_currentActivityEl LoadError g
  \/ exists data, data <> [] /\ adopt random data g = Some g'.
Proof.
  assert (Hfailed : forall message,
             loadFailed random message g = Some g' ->
             g' = set_currentActivityEl LoadError g
             \/ exists data, data <> [] /\ adopt random data g = Some g').
  { intros message H. destruct (loadFailed_cases message g g' H) as [->|H'].
    - left. reflexivity.
    - right. exists embeddedData. split; [discriminate|assumption]. }
  destruct r as [data|message]; cbn [loadActivities]; [|apply Hfailed].
  destruct (decide (length data = 0)) as [Hz|Hnz]; [apply Hfailed|].
  intros H. right. exists data. split; [|assumption].
  intros ->. apply Hnz. reflexivity.
Qed.

(** Every state of the page either has no content, or is inside a session
    whose completion screen (if it shows one) is sound. *)
Lemma reachable_inv (g : Game) :
  reachable random g ->
  without_content g \/ (in_session g /\ completion_sound g).
Proof.
  induction 1 as [|g tr lang stored _ IH|g r g' _ IH Hload|g ev _ IH].
  - left. unfold without_content. repeat split; auto.
  - destruct IH as [H|[Hin Hsound]]; [left|right; split].
    + destruct g; exact H.
    + destruct g; exact Hin.
    + destruct g; exact Hsound.
  - destruct (loadActivities_cases r g g' Hload) as [->|(data & Hdata & Hadopt)].
    + destruct IH as [(Ha & Hs & Ht & Htm & _)|[Hin Hsound]]; [left|right; split].
      * destruct g; unfold without_content; repeat split; auto.
      * destruct g; exact Hin.
      * intros s t acc. destruct g; discriminate.
    + right. destruct (adopt_in_session data g g' Hdata Hadopt)
        as (Hin & _ & _ & _ & first & Hscr).
      split; [assumption|]. intros s t acc. rewrite Hscr. discriminate.
  - destruct IH as [H|[Hin Hsound]]; [left|right; split].
    + apply handle_without_content, H.
    + apply handle_in_session, Hin.
    + apply handle_completion_sound; assumption.
Qed.



End Loaded.

Lemma run_reachable (random : nat -> Q) (evs : list Event) :
  forall g, reachable random g -> reachable random (run evs g).
Proof.
  induction evs as [|ev evs IH]; intros g H; [assumption|].
  rewrite run_cons. apply IH, reach_event, H.
Qed.


(** Percentages as the script computes them: 1 of 8 is 12.5 and shown as
    13; 23 of 40 is 57.49999999999999 in double precision and shown as 57;
    without activities the result is not a number. *)
Example accuracy_samples :
  accuracy 3 3 = Some 100%Z
  /\ accuracy 1 8 = Some 13%Z
  /\ accuracy 2 3 = Some 67%Z
  /\ accuracy 23 40 = Some 57%Z
  /\ accuracy 0 0 = None
  /\ accuracy 1 0 = None.
Proof. repeat split; vm_compute; reflexivity. Qed.
End EngineFacts.

(* ====================================================================== *)
(** ** Further properties                                                 *)
(* ====================================================================== *)

Module MoreFacts.
Import Engine Notions Page EngineFacts.
Import Stdlib.Strings.Ascii.

(** *** One step of the game, field by field *)

Lemma click_view (q : string) (g : Game) (a : Activity) :
  currentItem g = Some a ->
  score (handle (Click q) g)
  = (score g + (if decide (q = correctQuadrant a) then 1 else 0))%Z
  /\ timers (handle (Click q) g) = timers g ++ [CallShowNextActivity]
  /\ currentActivityIndex (handle (Click q) g) = currentActivityIndex g
  /\ currentActivityEl (handle (Click q) g) = currentActivityEl g
  /\ currentLanguage (handle (Click q) g) = currentLanguage g
  /\ timeMatrix (handle (Click q) g) = timeMatrix g
  /\ progressEl (handle (Click q) g) = progressEl g
  /\ feedbackEl (handle (Click q) g)
     = (if decide (q = correctQuadrant a) then FeedbackSuccess else FeedbackError)
  /\ scoreEl (handle (Click q) g)
     = (if decide (q = correctQuadrant a) then (score g + 1)%Z else scoreEl g).
Proof.
  unfold currentItem. intros H. cbn [handle]. unfold selectQuadrant. rewrite H.
  destruct (decide (q = correctQuadrant a)) as [Heq|Hne].
  - rewrite bool_decide_eq_true_2 by congruence.
    destruct g; script. repeat split.
  - rewrite bool_decide_eq_false_2 by congruence.
    destruct g; script. rewrite Z.add_0_r. repeat split.
Qed.

Lemma fire_next_view (g : Game) (rest : list Callback) (b : Activity) :
  timers g = CallShowNextActivity :: rest ->
  shuffled_of g !! (currentActivityIndex g + 1) = Some b ->
  currentActivityIndex (runTimer g) = currentActivityIndex g + 1
  /\ currentActivityEl (runTimer g) = presents b (currentLanguage g)
  /\ score (runTimer g) = score g
  /\ scoreEl (runTimer g) = scoreEl g
  /\ timers (runTimer g) = rest
  /\ currentLanguage (runTimer g) = currentLanguage g
  /\ timeMatrix (runTimer g) = timeMatrix g
  /\ progressEl (runTimer g)
     = Some (currentActivityIndex g + 1 + 1, totalActivities g)
  /\ feedbackEl (runTimer g) = FeedbackHidden.
Proof.
  intros Ht Hb. rewrite (runTimer_pending g rest Ht).
  unfold showNextActivity. cbv zeta.
  rewrite decide_False
    by (apply Nat.lt_nge; exact (lookup_lt_Some _ _ _ Hb)).
  destruct (displayActivity_in_range (currentActivityIndex (set_timers rest g) + 1)
              (set_timers rest g) b Hb)
    as (-> & -> & -> & -> & -> & -> & -> & -> & _ & _ & ->).
  repeat split.
Qed.

Lemma fire_last_view (g : Game) (rest : list Callback) :
  timers g = CallShowNextActivity :: rest ->
  length (shuffled_of g) <= currentActivityIndex g + 1 ->
  currentActivityIndex (runTimer g) = currentActivityIndex g
  /\ currentActivityEl (runTimer g)
     = GameComplete (score g) (totalActivities g)
         (accuracy (score g) (totalActivities g))
  /\ score (runTimer g) = score g
  /\ scoreEl (runTimer g) = scoreEl g
  /\ timers (runTimer g) = rest
  /\ currentLanguage (runTimer g) = currentLanguage g
  /\ timeMatrix (runTimer g) = DisplayNone
  /\ progressEl (runTimer g) = progressEl g
  /\ feedbackEl (runTimer g) = feedbackEl g.
Proof.
  intros Ht Hlast. rewrite (runTimer_pending g rest Ht).
  rewrite showNextActivity_last by exact Hlast.
  repeat split.
Qed.

Lemma right_answers_length (answers : list string) (order : list Activity) :
  right_answers answers order <= length answers.
Proof.
  revert order. induction answers as [|q answers IH]; intros [|a order]; cbn;
    try lia.
  specialize (IH order). destruct (decide _); lia.
Qed.

(** One answer per item from position [currentActivityIndex g] on, as long
    as items remain. *)
Lemma paired_answers_view (answers : list string) :
  forall g : Game,
    in_session g -> timers g = [] ->
    currentActivityIndex g + length answers <= length (shuffled_of g) ->
    let g' := run (answer_and_advance answers) g in
    timers g' = []
    /\ score g'
       = (score g
          + Z.of_nat (right_answers answers
                        (drop (currentActivityIndex g) (shuffled_of g))))%Z
    /\ currentLanguage g' = currentLanguage g
    /\ (currentActivityIndex g + length answers < length (shuffled_of g) ->
        currentActivityIndex g' = currentActivityIndex g + length answers
        /\ timeMatrix g' = timeMatrix g
        /\ (0 < length answers ->
            forall a, shuffled_of g !! (currentActivityIndex g + length answers) = Some a ->
                      currentActivityEl g' = presents a (currentLanguage g)))
    /\ (0 < length answers ->
        currentActivityIndex g + length answers = length (shuffled_of g) ->
        currentActivityIndex g' = length (shuffled_of g) - 1
        /\ timeMatrix g' = DisplayNone
        /\ currentActivityEl g'
           = GameComplete (score g') (totalActivities g)
               (accuracy (score g') (totalActivities g))).
Proof.
  induction answers as [|q answers IH]; intros g Hin Ht Hroom; cbv zeta.
  - cbn. rewrite Z.add_0_r. repeat split; intros; try lia; assumption.
  - cbn [length] in Hroom.
    destruct (in_session_current g Hin) as [a Ha].
    destruct (click_view q g a Ha)
      as (Hs1 & Ht1 & Hi1 & Hscr1 & Hl1 & Hm1 & _).
    pose proof (handle_in_session (Click q) g Hin) as Hin1.
    pose proof (same_content_shuffled _ _ (handle_same_content (Click q) g)) as Hsh1.
    pose proof (handle_same_content (Click q) g) as (_ & _ & _ & Htot1).
    set (g1 := handle (Click q) g) in *.
    rewrite Ht in Ht1. cbn [app] in Ht1.
    change (answer_and_advance (q :: answers))
      with ([Click q; TimerFires] ++ answer_and_advance answers).
    rewrite run_app.
    change (run [Click q; TimerFires] g) with (runTimer g1).
    assert (Hdrop : drop (currentActivityIndex g) (shuffled_of g)
                    = a :: drop (S (currentActivityIndex g)) (shuffled_of g))
      by (apply drop_S; exact Ha).
    rewrite Hdrop. cbn [right_answers length].
    destruct (decide (currentActivityIndex g + 1 < length (shuffled_of g))) as [Hlt|Hge].
    + destruct (lookup_lt_is_Some_2 _ _ Hlt) as [b Hb].
      destruct (fire_next_view g1 [] b Ht1)
        as (Hi2 & Hscr2 & Hs2 & _ & Ht2 & Hl2 & Hm2 & _).
      { rewrite Hsh1, Hi1. exact Hb. }
      set (g2 := runTimer g1) in *.
      assert (Hin2 : in_session g2) by (apply (handle_in_session TimerFires), Hin1).
      assert (Hsh2 : shuffled_of g2 = shuffled_of g).
      { rewrite <- Hsh1.
        apply same_content_shuffled, (handle_same_content TimerFires). }
      assert (Htot2 : totalActivities g2 = totalActivities g).
      { rewrite <- Htot1. apply (handle_same_content TimerFires g1). }
      specialize (IH g2 Hin2 Ht2). cbv zeta in IH.
      rewrite Hsh2, Hi2, Hi1, Hs2, Hs1, Hl2, Hl1, Hm2, Hm1, Htot2 in IH.
      destruct IH as (IHt & IHs & IHl & IHmid & IHend); [lia|].
      replace (currentActivityIndex g + 1) with (S (currentActivityIndex g)) in * by lia.
      split; [assumption|]. split.
      { rewrite IHs. destruct (decide (q = correctQuadrant a)); lia. }
      split; [assumption|]. split.
      * intros Hless. destruct IHmid as (IHi & IHm & IHscr); [lia|].
        split; [lia|]. split; [assumption|].
        intros _ c Hc. destruct answers as [|q' answers'].
        -- cbn in *. rewrite Hscr2, Hl1.
           replace (currentActivityIndex g + 1) with (S (currentActivityIndex g)) in Hc by lia.
           congruence.
        -- apply IHscr; [cbn; lia|].
           rewrite <- Hc. f_equal. cbn. lia.
      * intros _ Hfull. destruct answers as [|q' answers']; [cbn in Hfull; lia|].
        apply IHend; [cbn; lia|cbn in *; lia].
    + assert (Hlen : answers = []) by (destruct answers; [reflexivity|cbn in Hroom; lia]).
      subst answers. cbn [answer_and_advance flat_map run foldl length right_answers].
      destruct (fire_last_view g1 [] Ht1)
        as (Hi2 & Hscr2 & Hs2 & _ & Ht2 & Hl2 & Hm2 & _).
      { rewrite Hsh1, Hi1. lia. }
      rewrite Ht2, Hs2, Hl2, Hi2, Hscr2, Hm2, Hs1, Hl1, Hi1, Htot1.
      split; [reflexivity|]. split.
      { destruct (decide (q = correctQuadrant a)); cbn; lia. }
      split; [reflexivity|]. split; [intros; lia|].
      intros _ _. repeat split. lia.
Qed.
(** *** Playing a session through *)

Lemma right_answers_all (order : list Activity) (k : nat) :
  k <= length order ->
  right_answers (map correctQuadrant (take k order)) order = k.
Proof.
  revert k. induction order as [|a order IH]; intros [|k] Hk; cbn in *;
    try reflexivity; try lia.
  rewrite decide_True by reflexivity. rewrite IH by lia. reflexivity.
Qed.

(** X1. From a fresh session of n items, with every presented item answered
    once and then advanced: after k pairs, 0 < k < n, the item at index k
    of the order (the one that follows the k answered items) is the
    current one and on the screen, and the matrix is as it was; after
    exactly n pairs the results are on the screen, with the score, the
    total and the percentage, and the matrix is hidden. *)
Theorem completion_after_last_item (g : Game) (answers : list string) :
  fresh_session g ->
  0 < length answers <= length (shuffled_of g) ->
  let g' := run (answer_and_advance answers) g in
  (length answers < length (shuffled_of g) ->
   exists a,
     shuffled_of g !! length answers = Some a
     /\ currentItem g' = Some a
     /\ currentActivityEl g' = presents a (currentLanguage g)
     /\ timeMatrix g' = timeMatrix g)
  /\ (length answers = length (shuffled_of g) ->
      currentActivityEl g'
      = GameComplete (score g') (totalActivities g)
          (accuracy (score g') (totalActivities g))
      /\ timeMatrix g' = DisplayNone
      /\ totalActivities g = length answers).
Proof.
  intros (Hin & Hs & Hi & Ht) Hlen. cbv zeta.
  destruct (paired_answers_view answers g Hin Ht ltac:(lia))
    as (_ & _ & _ & Hmid & Hend).
  rewrite Hi in Hmid, Hend. cbn [Nat.add] in Hmid, Hend.
  pose proof (same_content_shuffled _ _
                (run_same_content (answer_and_advance answers) g)) as Hsh.
  split.
  - intros Hless. destruct (Hmid Hless) as (Hi' & Hm' & Hscr').
    destruct (lookup_lt_is_Some_2 _ _ Hless) as [a Ha].
    exists a. unfold currentItem. rewrite Hsh, Hi'.
    repeat split; try assumption. apply Hscr'; [lia|assumption].
  - intros Hfull. destruct (Hend ltac:(lia) Hfull) as (_ & Hm' & Hscr').
    destruct Hin as (_ & _ & Htot & _).
    repeat split; try assumption. lia.
Qed.

Lemma completion_after_last_item_witness :
  let g' := run (answer_and_advance ["q2"; "q1"; "q1"]) sample_session in
  (length ["q2"; "q1"; "q1"] < length (shuffled_of sample_session) ->
   exists a,
     shuffled_of sample_session !! length ["q2"; "q1"; "q1"] = Some a
     /\ currentItem g' = Some a
     /\ currentActivityEl g' = presents a (currentLanguage sample_session)
     /\ timeMatrix g' = timeMatrix sample_session)
  /\ (length ["q2"; "q1"; "q1"] = length (shuffled_of sample_session) ->
      currentActivityEl g'
      = GameComplete (score g') (totalActivities sample_session)
          (accuracy (score g') (totalActivities sample_session))
      /\ timeMatrix g' = DisplayNone
      /\ totalActivities sample_session = length ["q2"; "q1"; "q1"]).
Proof.
  apply (completion_after_last_item sample_session ["q2"; "q1"; "q1"]).
  - exact sample_session_fresh.
  - vm_compute. lia.
Defined.

(** X2. With every presented item answered once, the score is the number
    of answers that name the quadrant of their item; when all of the first
    k items are answered with their own quadrant the score is k. *)
Theorem score_counts_right_answers (g : Game) (answers : list string) :
  fresh_session g ->
  length answers <= length (shuffled_of g) ->
  score (run (answer_and_advance answers) g)
  = Z.of_nat (right_answers answers (shuffled_of g))
  /\ (answers = map correctQuadrant (take (length answers) (shuffled_of g)) ->
      score (run (answer_and_advance answers) g) = Z.of_nat (length answers)).
Proof.
  intros (Hin & Hs & Hi & Ht) Hlen.
  destruct (paired_answers_view answers g Hin Ht ltac:(lia)) as (_ & Hscore & _).
  cbv zeta in Hscore. rewrite Hs, Hi, drop_0, Z.add_0_l in Hscore.
  split; [assumption|].
  intros Hall. rewrite Hscore. f_equal. rewrite Hall at 1.
  apply right_answers_all. assumption.
Qed.

Lemma score_counts_right_answers_witness :
  score (run (answer_and_advance ["q2"; "q3"; "q1"]) sample_session)
  = Z.of_nat (right_answers ["q2"; "q3"; "q1"] (shuffled_of sample_session))
  /\ (["q2"; "q3"; "q1"]
      = map correctQuadrant
          (take (length ["q2"; "q3"; "q1"]) (shuffled_of sample_session)) ->
      score (run (answer_and_advance ["q2"; "q3"; "q1"]) sample_session)
      = Z.of_nat (length ["q2"; "q3"; "q1"])).
Proof.
  apply (score_counts_right_answers sample_session ["q2"; "q3"; "q1"]).
  - exact sample_session_fresh.
  - vm_compute. lia.
Defined.

Example sample_scores :
  score (run (answer_and_advance ["q2"; "q1"; "q1"]) sample_session) = 2%Z
  /\ score (run (answer_and_advance ["q1"; "q1"; "q1"]) sample_session) = 1%Z.
Proof. split; vm_compute; reflexivity. Qed.
(** *** Answers and advances out of step *)

Lemma handle_click_current (q : string) (g : Game) (a : Activity) :
  currentItem g = Some a -> currentItem (handle (Click q) g) = Some a.
Proof.
  intros H. destruct (click_view q g a H) as (_ & _ & Hi & _).
  unfold currentItem in *.
  rewrite (same_content_shuffled _ _ (handle_same_content (Click q) g)), Hi.
  exact H.
Qed.

(** X3. While one item is displayed every click is judged afresh: after a
    series of clicks on it the score has grown by the number of clicks that
    name its quadrant, the item is still the current one, and one advance
    per click is waiting. *)
Theorem repeated_clicks_score (g : Game) (a : Activity) (clicks : list string) :
  currentItem g = Some a ->
  score (run (map Click clicks) g)
  = (score g
     + Z.of_nat (length (filter (fun q => q = correctQuadrant a) clicks)))%Z
  /\ currentItem (run (map Click clicks) g) = Some a
  /\ timers (run (map Click clicks) g)
     = timers g ++ replicate (length clicks) CallShowNextActivity.
Proof.
  revert g. induction clicks as [|q clicks IH]; intros g Ha.
  - cbn. rewrite Z.add_0_r, app_nil_r. auto.
  - change (map Click (q :: clicks)) with (Click q :: map Click clicks).
    rewrite run_cons.
    destruct (click_view q g a Ha) as (Hs & Ht & _).
    destruct (IH (handle (Click q) g) (handle_click_current q g a Ha))
      as (IHs & IHa & IHt).
    rewrite IHs, IHt, Hs, Ht, filter_cons, <- app_assoc. cbn [length replicate app].
    repeat split; try assumption.
    destruct (decide (q = correctQuadrant a)); cbn [length]; lia.
Qed.

Lemma repeated_clicks_score_witness :
  score (run (map Click ["q2"; "q1"; "q2"]) sample_session)
  = (score sample_session
     + Z.of_nat (length (filter (fun q => q = correctQuadrant plan_week)
                           ["q2"; "q1"; "q2"])))%Z
  /\ currentItem (run (map Click ["q2"; "q1"; "q2"]) sample_session)
     = Some plan_week
  /\ timers (run (map Click ["q2"; "q1"; "q2"]) sample_session)
     = timers sample_session
       ++ replicate (length ["q2"; "q1"; "q2"]) CallShowNextActivity.
Proof.
  apply (repeated_clicks_score sample_session plan_week ["q2"; "q1"; "q2"]).
  vm_compute. reflexivity.
Defined.

(** X4. On the last item of the order an advance ends the game and leaves
    the position where it is. However many advances fire there, the
    position and the score stay, the matrix is hidden, and the results show
    the score and total of the moment. *)
Theorem advances_at_the_end (g : Game) (m : nat) :
  length (shuffled_of g) <= currentActivityIndex g + 1 ->
  0 < m <= length (timers g) ->
  currentActivityIndex (run (replicate m TimerFires) g) = currentActivityIndex g
  /\ score (run (replicate m TimerFires) g) = score g
  /\ timers (run (replicate m TimerFires) g) = drop m (timers g)
  /\ timeMatrix (run (replicate m TimerFires) g) = DisplayNone
  /\ currentActivityEl (run (replicate m TimerFires) g)
     = GameComplete (score g) (totalActivities g)
         (accuracy (score g) (totalActivities g)).
Proof.
  revert g. induction m as [|m IH]; intros g Hlast Hm; [lia|].
  destruct (timers g) as [|[] rest] eqn:Ht; [cbn in Hm; lia|].
  destruct (fire_last_view g rest Ht Hlast)
    as (Hi & Hscr & Hs & _ & Ht' & _ & Hm' & _).
  change (replicate (S m) TimerFires) with (TimerFires :: replicate m TimerFires).
  rewrite run_cons. change (handle TimerFires g) with (runTimer g).
  destruct m as [|m].
  - cbn. rewrite drop_0. auto.
  - pose proof (same_content_shuffled _ _ (handle_same_content TimerFires g)) as Hsh.
    pose proof (handle_same_content TimerFires g) as (_ & _ & _ & Htot).
    cbn [handle] in Hsh, Htot.
    destruct (IH (runTimer g)) as (IHi & IHs & IHt & IHm & IHscr).
    { rewrite Hsh, Hi. assumption. }
    { rewrite Ht'. cbn in Hm. lia. }
    rewrite IHi, IHs, IHt, IHm, IHscr, Hi, Hs, Ht', Htot. repeat split.
Qed.

Lemma advances_at_the_end_witness :
  currentActivityIndex
    (run (replicate 2 TimerFires)
       (run (map Click ["q1"; "q4"]) sample_finished))
  = currentActivityIndex (run (map Click ["q1"; "q4"]) sample_finished)
  /\ score (run (replicate 2 TimerFires)
              (run (map Click ["q1"; "q4"]) sample_finished))
     = score (run (map Click ["q1"; "q4"]) sample_finished)
  /\ timers (run (replicate 2 TimerFires)
               (run (map Click ["q1"; "q4"]) sample_finished))
     = drop 2 (timers (run (map Click ["q1"; "q4"]) sample_finished))
  /\ timeMatrix (run (replicate 2 TimerFires)
                   (run (map Click ["q1"; "q4"]) sample_finished))
     = DisplayNone
  /\ currentActivityEl (run (replicate 2 TimerFires)
                          (run (map Click ["q1"; "q4"]) sample_finished))
     = GameComplete
         (score (run (map Click ["q1"; "q4"]) sample_finished))
         (totalActivities (run (map Click ["q1"; "q4"]) sample_finished))
         (accuracy
            (score (run (map Click ["q1"; "q4"]) sample_finished))
            (totalActivities (run (map Click ["q1"; "q4"]) sample_finished))).
Proof.
  apply (advances_at_the_end (run (map Click ["q1"; "q4"]) sample_finished) 2).
  - vm_compute. lia.
  - vm_compute. lia.
Defined.

Lemma handle_score_step (ev : Event) (g : Game) :
  (0 <= score g)%Z ->
  (0 <= score (handle ev g) <= score g + (if is_answer ev then 1 else 0))%Z.
Proof.
  intros Hs. destruct g, ev; cbn [is_answer]; script; split_cases; lia.
Qed.

(** X5. In any order of clicks, keys, restarts, language changes and timer
    firings the score stays non-negative and grows by at most one per
    answer: it never exceeds the score at the start plus the number of
    answers given. *)
Theorem score_at_most_answers (g : Game) (evs : list Event) :
  (0 <= score g)%Z ->
  (0 <= score (run evs g)
   <= score g + Z.of_nat (length (filter (fun ev => is_answer ev = true) evs)))%Z.
Proof.
  revert g. induction evs as [|ev evs IH]; intros g Hs.
  - cbn. lia.
  - rewrite run_cons.
    pose proof (handle_score_step ev g Hs) as Hstep.
    specialize (IH (handle ev g) ltac:(lia)).
    rewrite filter_cons. destruct (is_answer ev) eqn:Hev.
    + rewrite decide_True by reflexivity. cbn [length]. lia.
    + rewrite decide_False by discriminate. lia.
Qed.

Lemma score_at_most_answers_witness :
  (0 <= score (run [Click "q2"; PlayAgain; KeyDown "2"; TimerFires] sample_session)
   <= score sample_session
      + Z.of_nat (length (filter (fun ev => is_answer ev = true)
                            [Click "q2"; PlayAgain; KeyDown "2"; TimerFires])))%Z.
Proof.
  apply (score_at_most_answers sample_session
           [Click "q2"; PlayAgain; KeyDown "2"; TimerFires]).
  vm_compute. discriminate.
Defined.
(** *** What loading gives *)

Lemma startGame_view (g : Game) :
  same_content g (startGame g)
  /\ score (startGame g) = score g
  /\ scoreEl (startGame g) = scoreEl g
  /\ timers (startGame g) = timers g
  /\ currentLanguage (startGame g) = currentLanguage g
  /\ translations (startGame g) = translations g
  /\ localStorage (startGame g) = localStorage g.
Proof.
  destruct g; script; split_cases; repeat split.
Qed.

Lemma adopt_shape (random : nat -> Q) (data : list Activity) (g g' : Game) :
  adopt random data g = Some g' ->
  exists rt loaded shuffled,
    g' = startGame
           (set_progressEl (Some (0, length data))
              (set_shuffledActivities shuffled
                 (set_totalActivities (length data)
                    (set_activities loaded (set_runtime rt g))))).
Proof.
  unfold adopt.
  destruct (Runtime.bind _ _ (runtime g)) as [[[loaded shuffled] rt]|];
    [|discriminate].
  intros [= <-]. exists rt, loaded, shuffled. reflexivity.
Qed.


Section Loads.
Variable random : nat -> Q.
Hypothesis random_range : forall k, Runtime.unit_interval (random k).

Lemma adopt_result (data : list Activity) (g : Game) :
  data <> [] ->
  exists g' first,
    adopt random data g = Some g'
    /\ activities_of g' = data
    /\ shuffled_of g' ≡ₚ data
    /\ totalActivities g' = length data
    /\ currentActivityIndex g' = 0
    /\ currentItem g' = Some first
    /\ currentActivityEl g' = presents first (currentLanguage g)
    /\ progressEl g' = Some (1, length data)
    /\ in_session g'
    /\ score g' = score g
    /\ scoreEl g' = scoreEl g
    /\ timers g' = timers g
    /\ currentLanguage g' = currentLanguage g
    /\ translations g' = translations g
    /\ localStorage g' = localStorage g
    /\ timeMatrix g' = timeMatrix g.
Proof.
  intros Hdata.
  destruct (adopt_spec random random_range data g)
    as (g0 & order & Hrun & Hact & Hsh & Hperm & Htot & _).
  destruct (adopt_shape random data g _ Hrun) as (rt & loaded & shuffled & Hshape).
  set (h := set_progressEl (Some (0, length data))
              (set_shuffledActivities shuffled
                 (set_totalActivities (length data)
                    (set_activities loaded (set_runtime rt g))))) in *.
  destruct (adopt_in_session random random_range data g (startGame g0) Hdata Hrun)
    as (Hin & Hi & _).
  destruct (startGame_view g0) as (Hsame0 & _).
  pose proof (same_content_shuffled _ _ Hsame0) as Hsh0.
  pose proof (same_content_activities _ _ Hsame0) as Hact0.
  destruct Hsame0 as (_ & _ & _ & Htot0).
  rewrite Hshape in *.
  destruct (startGame_view h) as (Hsame & Hs & Hse & Ht & Hl & Htr & Hst).
  pose proof (same_content_shuffled _ _ Hsame) as Hshh.
  pose proof (same_content_activities _ _ Hsame) as Hacth.
  assert (Hlen : length order = length data) by (apply Permutation_length, Hperm).
  assert (Hpos : 0 < length data) by (destruct data; [congruence|cbn; lia]).
  destruct (lookup_lt_is_Some_2 (shuffled_of h) 0) as [first Hfirst].
  { rewrite <- Hshh, Hsh0, Hsh. lia. }
  assert (Hdisp : startGame h = displayActivity 0 h).
  { unfold startGame. rewrite decide_False; [reflexivity|].
    rewrite <- Hacth, Hact0, Hact. lia. }
  destruct (displayActivity_in_range 0 h first Hfirst)
    as (_ & Hscr & Hprog & _ & _ & _ & Hm & _).
  rewrite <- Hdisp in Hscr, Hprog, Hm.
  exists (startGame h), first.
  split; [assumption|]. split; [congruence|].
  split; [rewrite Hsh0, Hsh; assumption|]. split; [congruence|].
  split; [assumption|].
  split; [unfold currentItem; rewrite Hshh, Hi; assumption|].
  split; [rewrite Hscr; destruct g; reflexivity|].
  split; [rewrite Hprog; destruct g; reflexivity|].
  split; [assumption|].
  rewrite Hs, Hse, Ht, Hl, Htr, Hst, Hm. destruct g; repeat split.
Qed.

(** X6. Loading always ends in a state. A non-empty list of activities is
    taken over as it is: the shuffled order is a permutation of it, the
    total is its length and the first item of the order is presented. An
    error whose message contains "Failed to fetch" or "CORS" does the same
    with the embedded activities. Any other error, and an empty list, only
    puts the error message on the screen. Score, pending callbacks, the
    language and the matrix are not touched in any of the cases. *)
Theorem loadActivities_outcomes (g : Game) (r : FetchResult) :
  let uses data :=
    exists g' first,
      loadActivities random r g = Some g'
      /\ activities_of g' = data
      /\ shuffled_of g' ≡ₚ data
      /\ totalActivities g' = length data
      /\ currentActivityIndex g' = 0
      /\ currentItem g' = Some first
      /\ currentActivityEl g' = presents first (currentLanguage g)
      /\ progressEl g' = Some (1, length data)
      /\ in_session g'
      /\ score g' = score g
      /\ scoreEl g' = scoreEl g
      /\ timers g' = timers g
      /\ currentLanguage g' = currentLanguage g
      /\ translations g' = translations g
      /\ localStorage g' = localStorage g
      /\ timeMatrix g' = timeMatrix g in
  match r with
  | FetchOk data =>
      if decide (data = []) then
        loadActivities random r g = Some (set_currentActivityEl LoadError g)
      else uses data
  | FetchError message =>
      if includes "Failed to fetch" message || includes "CORS" message
      then uses embeddedData
      else loadActivities random r g = Some (set_currentActivityEl LoadError g)
  end.
Proof.
  cbv zeta. destruct r as [data|message].
  - destruct (decide (data = [])) as [->|Hdata]; [reflexivity|].
    cbn [loadActivities].
    rewrite decide_False by (destruct data; [congruence|discriminate]).
    apply adopt_result. assumption.
  - cbn [loadActivities]. unfold loadFailed, useEmbeddedData.
    destruct (_ || _); [|reflexivity].
    apply adopt_result. discriminate.
Qed.

End Loads.

Lemma loadActivities_outcomes_witness :
  exists g' first,
    loadActivities sample_random (FetchError "TypeError: Failed to fetch")
      sample_page = Some g'
    /\ activities_of g' = embeddedData
    /\ shuffled_of g' ≡ₚ embeddedData
    /\ totalActivities g' = length embeddedData
    /\ currentActivityIndex g' = 0
    /\ currentItem g' = Some first
    /\ currentActivityEl g' = presents first (currentLanguage sample_page)
    /\ progressEl g' = Some (1, length embeddedData)
    /\ in_session g'
    /\ score g' = score sample_page
    /\ scoreEl g' = scoreEl sample_page
    /\ timers g' = timers sample_page
    /\ currentLanguage g' = currentLanguage sample_page
    /\ translations g' = translations sample_page
    /\ localStorage g' = localStorage sample_page
    /\ timeMatrix g' = timeMatrix sample_page.
Proof.
  exact (loadActivities_outcomes sample_random ShuffleFacts.sample_random_range
           sample_page (FetchError "TypeError: Failed to fetch")).
Defined.

Example embedded_activities_count : length embeddedData = 28.
Proof. reflexivity. Qed.
(** *** What holds in every state of the page *)

Section Always.
Variable random : nat -> Q.
Hypothesis random_range : forall k, Runtime.unit_interval (random k).

(** X7. In every state the page can reach, [shuffledActivities] holds the
    same activities as [activities], each as often, in some order, and
    [totalActivities] is their number. *)
Theorem order_is_permutation (g : Game) :
  reachable random g ->
  shuffled_of g ≡ₚ activities_of g
  /\ totalActivities g = length (activities_of g)
  /\ length (shuffled_of g) = totalActivities g.
Proof.
  assert (Hlen : forall h, shuffled_of h ≡ₚ activities_of h
                           /\ totalActivities h = length (activities_of h) ->
                           shuffled_of h ≡ₚ activities_of h
                           /\ totalActivities h = length (activities_of h)
                           /\ length (shuffled_of h) = totalActivities h).
  { intros h (Hp & Ht). repeat split; try assumption.
    rewrite Ht. apply Permutation_length, Hp. }
  intros Hreach. apply Hlen.
  induction Hreach as [|g tr lang stored _ IH|g r g' _ IH Hload|g ev _ IH].
  - split; reflexivity.
  - destruct g; exact IH.
  - destruct (loadActivities_cases random r g g' Hload) as [->|(data & Hdata & Hadopt)].
    + destruct g; exact IH.
    + destruct (adopt_result random random_range data g Hdata)
        as (g'' & first & Hrun & Hact & Hperm & Htot & _).
      rewrite Hrun in Hadopt. injection Hadopt as <-.
      rewrite Hact. split; assumption.
  - pose proof (handle_same_content ev g) as Hsame.
    rewrite (same_content_shuffled _ _ Hsame), (same_content_activities _ _ Hsame).
    destruct Hsame as (_ & _ & _ & ->). exact IH.
Qed.

(** X8. In every state the page can reach, an answer throws exactly when
    no activities are loaded, and then changes nothing, schedules nothing;
    once activities are loaded the position is within the order and an
    answer ends normally, also after the game is complete. *)
Theorem answer_throws_without_content (g : Game) (q : option string) :
  reachable random g ->
  (totalActivities g = 0 -> selectQuadrant q g = (TypeError, g))
  /\ (totalActivities g <> 0 ->
      currentActivityIndex g < totalActivities g
      /\ fst (selectQuadrant q g) = Normal
      /\ timers (snd (selectQuadrant q g)) = timers g ++ [CallShowNextActivity]).
Proof.
  intros Hreach.
  destruct (reachable_inv random random_range g Hreach)
    as [(_ & Hs & Htot & _)|[Hin _]].
  - split; [|intros; congruence]. intros _. apply selectQuadrant_no_item.
    unfold currentItem. rewrite Hs. reflexivity.
  - pose proof Hin as (Hlen & _ & Htot & Hidx).
    split; [intros; lia|]. intros _.
    destruct (in_session_current g Hin) as [a Ha].
    destruct (selectQuadrant_current q g a Ha) as (Hn & Ht & _).
    split; [lia|]. split; assumption.
Qed.

End Always.

Lemma order_is_permutation_witness :
  shuffled_of sample_finished ≡ₚ activities_of sample_finished
  /\ totalActivities sample_finished = length (activities_of sample_finished)
  /\ length (shuffled_of sample_finished) = totalActivities sample_finished.
Proof.
  apply (order_is_permutation sample_random ShuffleFacts.sample_random_range
           sample_finished).
  apply run_reachable, sample_session_reachable.
Defined.

Lemma answer_throws_without_content_witness :
  (totalActivities sample_finished = 0 ->
   selectQuadrant (Some "q1") sample_finished = (TypeError, sample_finished))
  /\ (totalActivities sample_finished <> 0 ->
      currentActivityIndex sample_finished < totalActivities sample_finished
      /\ fst (selectQuadrant (Some "q1") sample_finished) = Normal
      /\ timers (snd (selectQuadrant (Some "q1") sample_finished))
         = timers sample_finished ++ [CallShowNextActivity]).
Proof.
  apply (answer_throws_without_content sample_random
           ShuffleFacts.sample_random_range sample_finished (Some "q1")).
  apply run_reachable, sample_session_reachable.
Defined.

Lemma handle_scoreEl (ev : Event) (g : Game) :
  scoreEl g = score g -> scoreEl (handle ev g) = score (handle ev g).
Proof.
  intros H. destruct g, ev; script; subst; split_cases; reflexivity.
Qed.

(** X9. The displayed score keeps up with the score: if the two agree,
    they still agree after any series of clicks, keys, restarts, language
    changes and timer firings. *)
Theorem score_display_in_step (g : Game) (evs : list Event) :
  scoreEl g = score g ->
  scoreEl (run evs g) = score (run evs g).
Proof.
  revert g. induction evs as [|ev evs IH]; intros g H; [assumption|].
  rewrite run_cons. apply IH, handle_scoreEl, H.
Qed.

Lemma score_display_in_step_witness :
  scoreEl (run [Click "q2"; TimerFires; KeyDown "3"; PlayAgain; Click "q1"]
             sample_session)
  = score (run [Click "q2"; TimerFires; KeyDown "3"; PlayAgain; Click "q1"]
             sample_session).
Proof.
  apply (score_display_in_step sample_session
           [Click "q2"; TimerFires; KeyDown "3"; PlayAgain; Click "q1"]).
  vm_compute. reflexivity.
Defined.
(** *** The life of the page *)












Example sample_visit_language :
  currentLanguage sample_visit = "pt"
  /\ localStorage sample_visit = Some "pt"
  /\ currentActivityEl sample_visit = ActivityText (Some "Answer a ringing phone")
  /\ score sample_visit = 1%Z.
Proof. repeat split; vm_compute; reflexivity. Qed.
(** *** The screen and the game *)








Section InStep.
Variable random : nat -> Q.
Hypothesis random_range : forall k, Runtime.unit_interval (random k).


End InStep.

(** *** Names, texts and headers *)



Example getQuadrantName_samples :
  getQuadrantName sample_visit "q3" = "Q3: Não Importante & Urgente"
  /\ getQuadrantName start "q3" = "Q3 (Not Important & Urgent)"
  /\ getQuadrantName sample_visit "q7" = "q7"
  /\ getQuadrantName sample_session "q3" = "Q3: Not Important & Urgent".
Proof. repeat split; vm_compute; reflexivity. Qed.

(** X13. Whatever the language, a description with a non-empty English
    text is never shown as [undefined] or as nothing: the text shown is a
    non-empty string, the one of the language or the English one. *)
Theorem activityText_never_missing (texts : gmap string string)
    (lang en : string) :
  texts !! "en" = Some en -> en <> "" ->
  exists s,
    activityText (LocalizedText texts) lang = Some s
    /\ s <> ""
    /\ (texts !! lang = Some s \/ s = en).
Proof.
  intros Hen Hne. cbn. rewrite Hen.
  destruct (texts !! lang) as [s|] eqn:Hl; cbn.
  - destruct (decide (s = "")) as [->|Hs]; eauto.
  - eauto.
Qed.

Lemma activityText_never_missing_witness :
  exists s,
    activityText (LocalizedText half_translated) "pt" = Some s
    /\ s <> ""
    /\ (half_translated !! "pt" = Some s \/ s = "Water the plants").
Proof.
  apply (activityText_never_missing half_translated "pt" "Water the plants").
  - vm_compute. reflexivity.
  - discriminate.
Defined.
(** *** The quadrant headers *)

Lemma free_of_colon_cons (c : ascii) (code : string) :
  free_of ":" (String c code) -> c <> ":"%char /\ free_of ":" code.
Proof.
  intros H. split.
  - intros ->. apply (H "" code). reflexivity.
  - intros a b ->. apply (H (String c a) b). reflexivity.
Qed.

Lemma after_prefix_colon_other (c : ascii) (s tail : string) :
  c <> ":"%char -> after_prefix (String ":" tail) (String c s) = None.
Proof.
  intros Hc. cbn [after_prefix]. destruct (Ascii.eqb ":" c) eqn:E; [|reflexivity].
  apply Ascii.eqb_eq in E. congruence.
Qed.

Lemma after_prefix_app (sep s : string) : after_prefix sep (sep +:+ s) = Some s.
Proof.
  induction sep as [|a sep IH].
  - destruct s; reflexivity.
  - change (String a sep +:+ s) with (String a (sep +:+ s)).
    cbn [after_prefix]. rewrite Ascii.eqb_refl. exact IH.
Qed.

Lemma split_first_after_code (tail code rest : string) :
  free_of ":" code ->
  split_first (String ":" tail) (code +:+ String ":" tail +:+ rest)
  = Some (code, rest).
Proof.
  induction code as [|c code IH]; intros Hfree.
  - change ("" +:+ String ":" tail +:+ rest) with (String ":" tail +:+ rest).
    destruct (String ":" tail +:+ rest) eqn:E; [discriminate|].
    unfold split_first. rewrite <- E, after_prefix_app. reflexivity.
  - apply free_of_colon_cons in Hfree as [Hc Hfree].
    change (String c code +:+ String ":" tail +:+ rest)
      with (String c (code +:+ String ":" tail +:+ rest)).
    cbn [split_first]. rewrite after_prefix_colon_other by assumption.
    fold (split_first (String ":" tail)). rewrite IH by assumption. reflexivity.
Qed.

Lemma split_first_none (sep s : string) :
  free_of sep s -> split_first sep s = None.
Proof.
  induction s as [|c s IH]; intros Hfree.
  - destruct sep as [|a sep]; [|reflexivity].
    exfalso. apply (Hfree "" ""). reflexivity.
  - assert (Hhere : after_prefix sep (String c s) = None).
    { destruct (after_prefix sep (String c s)) as [rest|] eqn:E; [|reflexivity].
      exfalso. apply (Hfree "" rest).
      clear -E. revert E. generalize (String c s). intros s0.
      revert s0. induction sep as [|a sep IHsep]; intros s0 E.
      - cbn in E. destruct s0; injection E as <-; reflexivity.
      - destruct s0 as [|b s0]; [discriminate|]. cbn [after_prefix] in E.
        destruct (Ascii.eqb a b) eqn:Eab; [|discriminate].
        apply Ascii.eqb_eq in Eab as ->.
        change (String b s0 = String b (sep +:+ rest)).
        f_equal. apply (IHsep s0 E). }
    cbn [split_first]. rewrite Hhere. fold (split_first sep).
    rewrite IH; [reflexivity|].
    intros a b ->. apply (Hfree (String c a) b). reflexivity.
Qed.

Lemma split_first_free (sep s : string) :
  split_first sep s = None -> free_of sep s.
Proof.
  intros Hnone a b ->. revert Hnone.
  induction a as [|c a IH].
  - change ("" +:+ sep +:+ b) with (sep +:+ b).
    destruct (sep +:+ b) eqn:E.
    + cbn [split_first]. rewrite <- E at 1. rewrite after_prefix_app.
      discriminate.
    + cbn [split_first]. rewrite <- E at 1. rewrite after_prefix_app.
      discriminate.
  - change (String c a +:+ sep +:+ b) with (String c (a +:+ sep +:+ b)).
    cbn [split_first].
    destruct (after_prefix sep (String c (a +:+ sep +:+ b))); [discriminate|].
    fold (split_first sep).
    destruct (split_first sep (a +:+ sep +:+ b)) as [[before rest]|];
      [discriminate|].
    intros _. apply IH. reflexivity.
Qed.

(** X14. For a title of the form code, colon, space, rest, where the code
    has no colon: the button of the quadrant gets the code; the subtitle
    gets the rest when the rest has no further colon-space, and only the
    part of the rest before the next colon-space otherwise. A title
    without any colon gives the whole title as button text and [undefined]
    as subtitle. *)
Theorem quadrant_header_parts (code rest : string) :
  free_of ":" code ->
  quadrantButton (code +:+ ": " +:+ rest) = code
  /\ (free_of ": " rest ->
      quadrantSubtitle (code +:+ ": " +:+ rest) = Some rest)
  /\ (forall more,
        free_of ":" rest ->
        quadrantSubtitle (code +:+ ": " +:+ rest +:+ ": " +:+ more) = Some rest)
  /\ quadrantButton code = code
  /\ (free_of ": " code -> quadrantSubtitle code = None).
Proof.
  intros Hcode.
  split; [|split; [|split; [|split]]].
  - unfold quadrantButton, split_0.
    change (code +:+ ": " +:+ rest)
      with (code +:+ String ":" "" +:+ String " " rest).
    rewrite split_first_after_code by assumption. reflexivity.
  - intros Hrest. unfold quadrantSubtitle, split_1.
    rewrite (split_first_after_code " " code rest Hcode).
    unfold split_0. rewrite split_first_none by assumption. reflexivity.
  - intros more Hrest. unfold quadrantSubtitle, split_1.
    rewrite (split_first_after_code " " code (rest +:+ ": " +:+ more) Hcode).
    unfold split_0. rewrite (split_first_after_code " " rest more Hrest).
    reflexivity.
  - unfold quadrantButton, split_0. rewrite split_first_none by assumption.
    reflexivity.
  - intros Hfree. unfold quadrantSubtitle, split_1.
    rewrite split_first_none by assumption. reflexivity.
Qed.

Lemma quadrant_header_parts_witness :
  free_of ":" "Q1"
  /\ (quadrantButton "Q1: Important & Urgent" = "Q1"
      /\ (free_of ": " "Important & Urgent" ->
          quadrantSubtitle "Q1: Important & Urgent" = Some "Important & Urgent")
      /\ (forall more,
            free_of ":" "Important & Urgent" ->
            quadrantSubtitle ("Q1" +:+ ": " +:+ "Important & Urgent" +:+ ": " +:+ more)
            = Some "Important & Urgent")
      /\ quadrantButton "Q1" = "Q1"
      /\ (free_of ": " "Q1" -> quadrantSubtitle "Q1" = None)).
Proof.
  split.
  - apply split_first_free. reflexivity.
  - apply (quadrant_header_parts "Q1" "Important & Urgent").
    apply split_first_free. reflexivity.
Defined.

Example embedded_headers :
  quadrantButton <$> embedded_en !! "q1Title" = Some "Q1"
  /\ quadrantSubtitle <$> embedded_en !! "q1Title"
     = Some (Some "Important & Urgent")
  /\ quadrantSubtitle <$> embedded_pt !! "q4Title"
     = Some (Some "Não Importante & Não Urgente").
Proof. vm_compute. repeat split. Qed.
(** *** The help dialog *)

Lemma toggleHelp_present (h : Help) (active : bool) :
  modal h = Some active ->
  modal (toggleHelp h) = Some (negb active)
  /\ overflow (toggleHelp h) = (if negb active then "hidden" else "").
Proof.
  intros H. unfold toggleHelp. rewrite H. destruct active; split; reflexivity.
Qed.

(** X15. With a help dialog in the page, after [n] uses of [toggleHelp]
    the dialog is open exactly when it was open before and [n] is even, or
    closed before and [n] is odd; and after at least one use the page
    scrolling is locked ([overflow] is "hidden") exactly while the dialog
    is open, and [overflow] is the empty string while it is closed. *)
Theorem help_locks_scrolling (n : nat) (h : Help) (active : bool) :
  modal h = Some active ->
  let h' := Nat.iter n toggleHelp h in
  let shown := if Nat.even n then active else negb active in
  modal h' = Some shown
  /\ (0 < n -> overflow h' = if shown then "hidden" else "").
Proof.
  intros Hmodal. cbv zeta.
  induction n as [|n [IHm IHo]].
  - split; [exact Hmodal|lia].
  - rewrite Nat.iter_succ, Nat.even_succ, <- Nat.negb_even.
    destruct (toggleHelp_present _ _ IHm) as [Hm Ho].
    rewrite Hm, Ho.
    destruct (Nat.even n), active; split; reflexivity.
Qed.

Lemma help_locks_scrolling_witness :
  modal (mkHelp (Some false) "auto") = Some false
  /\ (let h' := Nat.iter 3 toggleHelp (mkHelp (Some false) "auto") in
      let shown := if Nat.even 3 then false else negb false in
      modal h' = Some shown
      /\ (0 < 3 -> overflow h' = if shown then "hidden" else "")).
Proof.
  split; [reflexivity|].
  apply (help_locks_scrolling 3 (mkHelp (Some false) "auto") false).
  reflexivity.
Defined.

(** *** Restarting twice *)



(** *** The stored preference *)



Example saved_language_lost :
  let opened := set_localStorage (Some "fr") start in
  let next := loadTranslations (TranslationsOk sample_translations) opened in
  currentLanguage next = "en" /\ localStorage next = Some "en".
Proof. vm_compute. split; reflexivity. Qed.
End MoreFacts.
(* ====================================================================== *)
(** ** Further properties of the shuffle                                  *)
(* ====================================================================== *)

Module MoreShuffleFacts.
Import Runtime Notions Draws ShuffleFacts.
Import Runtime.Notations.

(** *** The draws of the shuffle *)

Section Streams.
Context {A : Type}.

(** The loop reads [Math.random] only at the calls it makes itself. *)
Lemma shuffle_loop_ext (random random' : nat -> Q) (p : loc) (i : nat) :
  forall rt : Runtime.t A,
    (forall k, random_calls rt <= k < random_calls rt + i ->
               random k = random' k) ->
    shuffle_loop random p i rt = shuffle_loop random' p i rt.
Proof.
  induction i as [|i IH]; intros rt Hsame; [reflexivity|].
  cbn [shuffle_loop]. unfold bind, Math_random, array_get, array_set.
  cbn [heap random_calls].
  rewrite <- (Hsame (random_calls rt)) by lia.
  set (j := Math_floor _).
  destruct (heap rt !! p) as [l|] eqn:Hp; [|reflexivity].
  destruct (l !! j) as [xj|]; [|reflexivity].
  cbn [heap random_calls]. rewrite Hp.
  destruct (l !! S i) as [xi|]; [|reflexivity].
  cbn [heap random_calls]. rewrite Hp.
  destruct (decide (S i < length l)); [|reflexivity].
  cbn [heap random_calls]. rewrite lookup_insert_eq.
  destruct (decide (j < length (<[S i := xj]> l))); [|reflexivity].
  apply IH. cbn [random_calls]. intros k Hk. apply Hsame. lia.
Qed.



Lemma Math_floor_fraction (j d : nat) :
  Math_floor ((Z.of_nat j # Pos.of_succ_nat d) * inject_Z (Z.of_nat (d + 1)))
  = j.
Proof.
  unfold Math_floor, Qfloor, Qmult, inject_Z. cbn [Qnum Qden].
  rewrite Pos.mul_1_r, Zpos_P_of_succ_nat.
  replace (Z.succ (Z.of_nat d)) with (Z.of_nat (d + 1)) by lia.
  rewrite Z.div_mul by lia. apply Nat2Z.id.
Qed.

(** Indices within the bounds of their passes are drawn by some stream of
    values in [0, 1). *)
Lemma draws_exist (calls i : nat) (js : list nat) :
  (forall k j, js !! k = Some j -> j <= i - k) ->
  exists random,
    (forall k, unit_interval (random k)) /\ draws random calls i js.
Proof.
  intros Hbound.
  exists (fun k => match js !! (k - calls) with
                   | Some j => Z.of_nat j # Pos.of_succ_nat (i - (k - calls))
                   | None => 0%Q
                   end).
  split.
  - intros k. destruct (js !! (k - calls)) as [j|] eqn:Hj.
    + specialize (Hbound _ _ Hj).
      unfold unit_interval, Qle, Qlt. cbn [Qnum Qden]. lia.
    + unfold unit_interval, Qle, Qlt. cbn. lia.
  - intros k j Hj.
    replace (calls + k - calls) with k by lia. rewrite Hj.
    apply Math_floor_fraction.
Qed.

(** From a counter [i], the loop can leave the first [i + 1] elements in
    any order; it leaves the others where they are. *)
Lemma shuffle_loop_reaches (i : nat) :
  forall (pre pre' suf : list A) (rt : Runtime.t A) (p : loc),
    length pre = S i ->
    pre' ≡ₚ pre ->
    heap rt !! p = Some (pre ++ suf) ->
    exists js,
      length js = i
      /\ (forall k j, js !! k = Some j -> j <= i - k)
      /\ (forall random,
            draws random (random_calls rt) i js ->
            shuffle_loop random p i rt
            = Some (tt, mk (<[p := pre' ++ suf]> (heap rt))
                           (random_calls rt + i))).
Proof.
  induction i as [|i IH]; intros pre pre' suf rt p Hlen Hperm Hp.
  - exists []. split; [reflexivity|]. split; [intros k j; discriminate|].
    intros random _. cbn [shuffle_loop]. unfold ret.
    destruct pre as [|x [|? ?]]; try discriminate.
    apply Permutation_singleton_r in Hperm as ->.
    rewrite insert_id by assumption. rewrite Nat.add_0_r.
    destruct rt; reflexivity.
  - assert (Hne : pre' <> []).
    { intros ->. apply Permutation_nil_l in Hperm. subst pre. discriminate. }
    destruct (exists_last Hne) as (q' & x & ->).
    assert (Hx : x ∈ pre).
    { rewrite <- Hperm. apply elem_of_app. right. apply list_elem_of_singleton.
      reflexivity. }
    apply list_elem_of_lookup_1 in Hx as [j Hj].
    assert (Hjlt : j < S (S i)).
    { rewrite <- Hlen. exact (lookup_lt_Some _ _ _ Hj). }
    destruct (lookup_lt_is_Some_2 pre (S i) ltac:(lia)) as [xi Hxi].
    set (l1 := <[j := xi]> (<[S i := x]> pre)).
    assert (Hperm1 : l1 ≡ₚ pre) by (apply Permutation_insert_swap; assumption).
    assert (Hlen1 : length l1 = S (S i))
      by (unfold l1; rewrite !length_insert; assumption).
    assert (Hlast : l1 !! S i = Some x).
    { unfold l1. destruct (decide (j = S i)) as [->|Hji].
      - rewrite list_lookup_insert_eq by (rewrite length_insert; lia).
        congruence.
      - rewrite list_lookup_insert_ne by assumption.
        apply list_lookup_insert_eq. lia. }
    assert (Hsplit : l1 = take (S i) l1 ++ [x]).
    { rewrite <- (take_S_r _ _ _ Hlast). symmetry. apply take_ge. lia. }
    set (q1 := take (S i) l1) in *.
    assert (Hq : q' ≡ₚ q1).
    { apply (Permutation_app_inv_r [x]).
      rewrite <- Hsplit, Hperm1. exact Hperm. }
    set (rt1 := mk (<[p := l1 ++ suf]> (heap rt)) (S (random_calls rt))).
    destruct (IH q1 q' ([x] ++ suf) rt1 p) as (js & Hjs & Hbound & Hrun).
    { unfold q1. rewrite length_take. lia. }
    { exact Hq. }
    { unfold rt1; cbn [heap]. rewrite lookup_insert_eq.
      rewrite app_assoc, <- Hsplit. reflexivity. }
    exists (j :: js). split; [cbn; congruence|]. split.
    { intros [|k] j' Hk; cbn in Hk.
      - injection Hk as <-. lia.
      - specialize (Hbound _ _ Hk). lia. }
    intros random Hdraws.
    pose proof (Hdraws 0 j eq_refl) as Hfirst.
    rewrite Nat.add_0_r, Nat.sub_0_r in Hfirst.
    assert (Hrest : draws random (random_calls rt1) i js).
    { intros k j' Hk. unfold rt1; cbn [random_calls].
      specialize (Hdraws (S k) j' Hk).
      replace (S (random_calls rt) + k) with (random_calls rt + S k) by lia.
      exact Hdraws. }
    specialize (Hrun random Hrest).
    cbn [shuffle_loop]. unfold bind at 1. unfold Math_random.
    rewrite Hfirst.
    unfold bind at 1, array_get at 1. cbn [heap]. rewrite Hp.
    rewrite (lookup_app_l_Some _ _ _ _ Hj).
    unfold bind at 1, array_get at 1. cbn [heap]. rewrite Hp.
    rewrite (lookup_app_l_Some _ _ _ _ Hxi).
    unfold bind at 1, array_set at 1. cbn [heap random_calls]. rewrite Hp.
    rewrite decide_True by (rewrite length_app; lia).
    unfold bind at 1, array_set at 1. cbn [heap random_calls].
    rewrite lookup_insert_eq.
    rewrite decide_True by (rewrite length_insert, length_app; lia).
    rewrite insert_insert_eq.
    rewrite (insert_app_l pre suf (S i)) by lia.
    rewrite (insert_app_l _ suf j) by (rewrite length_insert; lia).
    fold l1. fold rt1. rewrite Hrun. unfold rt1; cbn [heap random_calls].
    rewrite insert_insert_eq. rewrite <- app_assoc.
    do 3 f_equal. lia.
Qed.

(** X18. [shuffleArray] calls [Math.random] once for every element of
    the array but one, and not at all for an empty array; an array with at
    most one element is copied as it is; and the result depends on no
    other value of [Math.random] than those of its own calls. *)
Theorem shuffleArray_calls (random : nat -> Q) (rt : Runtime.t A)
    (array : loc) (l : list A) :
  (forall k, unit_interval (random k)) ->
  heap rt !! array = Some l ->
  (exists shuffled rt',
     shuffleArray random array rt = Some (shuffled, rt')
     /\ random_calls rt' = random_calls rt + (length l - 1)
     /\ (length l <= 1 ->
         heap rt' !! shuffled = Some l /\ random_calls rt' = random_calls rt))
  /\ (forall random',
        (forall k,
           random_calls rt <= k < random_calls rt + (length l - 1) ->
           random' k = random k) ->
        shuffleArray random' array rt = shuffleArray random array rt).
Proof.
  intros Hrange Harr. split.
  - destruct (shuffleArray_spec random Hrange rt array l Harr)
      as (shuffled & l' & Hrun & _ & Hperm).
    eexists shuffled, _. split; [exact Hrun|]. cbn [heap random_calls].
    split; [reflexivity|]. intros Hshort.
    rewrite lookup_insert_eq. split; [|lia]. f_equal.
    destruct l as [|x [|y l]]; cbn in Hshort; try lia.
    + apply Permutation_nil_r in Hperm. exact Hperm.
    + apply Permutation_singleton_r in Hperm. exact Hperm.
  - intros random' Hsame.
    unfold shuffleArray, bind, contents, alloc, array_length.
    rewrite Harr. cbn [heap random_calls]. rewrite lookup_insert_eq.
    rewrite (shuffle_loop_ext random' random); [reflexivity|].
    cbn [random_calls]. exact Hsame.
Qed.

(** [shuffleArray] is its loop, run on a fresh copy of the array. *)
Lemma shuffleArray_loop (random : nat -> Q) (rt : Runtime.t A) (array : loc)
    (l : list A) :
  heap rt !! array = Some l ->
  let shuffled := fresh (dom (heap rt)) in
  heap rt !! shuffled = None
  /\ shuffleArray random array rt
     = match shuffle_loop random shuffled (length l - 1)
               (mk (<[shuffled := l]> (heap rt)) (random_calls rt)) with
       | Some (_, rt') => Some (shuffled, rt')
       | None => None
       end.
Proof.
  intros Harr shuffled. split.
  - apply not_elem_of_dom. apply is_fresh.
  - unfold shuffleArray, bind, contents, alloc, array_length.
    rewrite Harr. cbn [heap random_calls]. fold shuffled.
    rewrite lookup_insert_eq.
    destruct (shuffle_loop random shuffled (length l - 1) _) as [[[] rt']|];
      reflexivity.
Qed.

(** X19. Every order of the elements can come out of [shuffleArray]: for
    every rearrangement of the array there are indices, one for each pass
    of the loop and each within the bounds of its pass, such that the call
    returns a new array with that rearrangement whenever [Math.random]
    gives values for which the loop computes these indices; and there are
    values in [0, 1) for which it does. *)
Theorem shuffleArray_reaches_every_order (rt : Runtime.t A) (array : loc)
    (l l' : list A) :
  heap rt !! array = Some l ->
  l' ≡ₚ l ->
  exists js,
    length js = length l - 1
    /\ (forall k j, js !! k = Some j -> j <= length l - 1 - k)
    /\ (forall random,
          draws random (random_calls rt) (length l - 1) js ->
          exists shuffled,
            heap rt !! shuffled = None
            /\ shuffleArray random array rt
               = Some (shuffled,
                       mk (<[shuffled := l']> (heap rt))
                          (random_calls rt + (length l - 1))))
    /\ (exists random,
          (forall k, unit_interval (random k))
          /\ draws random (random_calls rt) (length l - 1) js).
Proof.
  intros Harr Hperm.
  pose proof (fun random => shuffleArray_loop random rt array l Harr) as Hloop.
  cbv zeta in Hloop.
  set (shuffled := fresh (dom (heap rt))) in *.
  set (rt0 := mk (<[shuffled := l]> (heap rt)) (random_calls rt)) in *.
  destruct l as [|x l].
  - apply Permutation_nil_r in Hperm as ->.
    exists []. split; [reflexivity|]. split; [intros k j; discriminate|].
    split.
    + intros random _. exists shuffled.
      destruct (Hloop random) as [Hfresh ->]. split; [assumption|].
      cbn. rewrite Nat.add_0_r. reflexivity.
    + apply draws_exist. intros k j; discriminate.
  - destruct (shuffle_loop_reaches (length l) (x :: l) l' [] rt0 shuffled)
      as (js & Hjs & Hbound & Hrun).
    { reflexivity. }
    { exact Hperm. }
    { rewrite app_nil_r. apply lookup_insert_eq. }
    replace (length (x :: l) - 1) with (length l) in *
      by (cbn [length]; lia).
    exists js. split; [assumption|]. split; [assumption|]. split.
    + intros random Hdraws. exists shuffled.
      destruct (Hloop random) as [Hfresh ->]. split; [assumption|].
      rewrite (Hrun random Hdraws). unfold rt0; cbn [heap random_calls].
      rewrite insert_insert_eq, app_nil_r. reflexivity.
    + apply draws_exist. assumption.
Qed.

End Streams.

Lemma shuffleArray_calls_witness :
  (exists shuffled rt',
     shuffleArray sample_random 0 sample_runtime = Some (shuffled, rt')
     /\ random_calls rt' = random_calls sample_runtime + (4 - 1)
     /\ (4 <= 1 ->
         heap rt' !! shuffled = Some [10; 20; 30; 40]
         /\ random_calls rt' = random_calls sample_runtime))
  /\ (forall random',
        (forall k,
           random_calls sample_runtime <= k < random_calls sample_runtime + (4 - 1) ->
           random' k = sample_random k) ->
        shuffleArray random' 0 sample_runtime
        = shuffleArray sample_random 0 sample_runtime).
Proof.
  apply (shuffleArray_calls sample_random sample_runtime 0 [10; 20; 30; 40]).
  - exact sample_random_range.
  - reflexivity.
Defined.

Lemma shuffleArray_reaches_every_order_witness :
  exists js,
    length js = 4 - 1
    /\ (forall k j, js !! k = Some j -> j <= 4 - 1 - k)
    /\ (forall random,
          draws random (random_calls sample_runtime) (4 - 1) js ->
          exists shuffled,
            heap sample_runtime !! shuffled = None
            /\ shuffleArray random 0 sample_runtime
               = Some (shuffled,
                       mk (<[shuffled := [30; 10; 40; 20]]> (heap sample_runtime))
                          (random_calls sample_runtime + (4 - 1))))
    /\ (exists random,
          (forall k, unit_interval (random k))
          /\ draws random (random_calls sample_runtime) (4 - 1) js).
Proof.
  apply (shuffleArray_reaches_every_order sample_runtime 0
           [10; 20; 30; 40] [30; 10; 40; 20]).
  - reflexivity.
  - solve_Permutation.
Defined.

End MoreShuffleFacts.

(* ====================================================================== *)
(** ** The orders a game can have                                         *)
(* ====================================================================== *)

Module DealFacts.
Import Engine Notions Draws EngineFacts MoreFacts.

(** X20. Every order of the activities can be dealt: for a non-empty list
    of activities and any rearrangement of it there are values of
    [Math.random] in [0, 1) with which [loadActivities] starts a game whose
    shuffled order is that rearrangement, whose [activities] are the list
    as it came, and whose current item is the first of the rearrangement. *)
Theorem every_order_can_be_dealt (data order : list Activity) (g : Game) :
  data <> [] ->
  order ≡ₚ data ->
  exists random g',
    (forall k, Runtime.unit_interval (random k))
    /\ loadActivities random (FetchOk data) g = Some g'
    /\ shuffled_of g' = order
    /\ activities_of g' = data
    /\ currentActivityIndex g' = 0
    /\ currentItem g' = order !! 0.
Proof.
  intros Hdata Hperm.
  set (heap0 := Runtime.heap (runtime g)).
  set (loaded := fresh (dom heap0)).
  set (heap1 := <[loaded := data]> heap0).
  set (copy := fresh (dom heap1)).
  set (heap2 := <[copy := data]> heap1).
  set (rt2 := Runtime.mk heap2 (Runtime.random_calls (runtime g))).
  assert (Hcopy : heap1 !! copy = None)
    by (apply not_elem_of_dom, is_fresh).
  assert (Hcl : copy <> loaded).
  { intros E. rewrite E in Hcopy. unfold heap1 in Hcopy.
    rewrite lookup_insert_eq in Hcopy. discriminate. }
  assert (Hrt2 : Runtime.heap rt2 !! copy = Some data)
    by apply lookup_insert_eq.
  set (shuffled := fresh (dom (Runtime.heap rt2))).
  set (rt3 := Runtime.mk (<[shuffled := data]> (Runtime.heap rt2))
                (Runtime.random_calls rt2)).
  assert (Hlen : length data = S (length data - 1))
    by (destruct data; [congruence|cbn [length]; lia]).
  destruct (MoreShuffleFacts.shuffle_loop_reaches (length data - 1) data order
              [] rt3 shuffled Hlen Hperm)
    as (js & _ & Hbound & Hrun).
  { rewrite app_nil_r. apply lookup_insert_eq. }
  destruct (MoreShuffleFacts.draws_exist (Runtime.random_calls rt3)
              (length data - 1) js Hbound) as (random & Hrange & Hdraws).
  specialize (Hrun random Hdraws).
  destruct (MoreShuffleFacts.shuffleArray_loop random rt2 copy data Hrt2)
    as [Hnew Hshuffle].
  fold shuffled in Hnew, Hshuffle. fold rt3 in Hshuffle.
  rewrite Hrun in Hshuffle. unfold rt3 in Hshuffle.
  cbn [Runtime.heap Runtime.random_calls] in Hshuffle.
  rewrite insert_insert_eq, app_nil_r in Hshuffle.
  unfold rt2 in Hnew. cbn [Runtime.heap Runtime.random_calls] in Hnew, Hshuffle.
  assert (Hsc : shuffled <> copy).
  { intros E. rewrite E in Hnew. unfold heap2 in Hnew.
    rewrite lookup_insert_eq in Hnew. discriminate. }
  assert (Hsl : shuffled <> loaded).
  { intros E. rewrite E in Hnew. unfold heap2 in Hnew.
    rewrite lookup_insert_ne in Hnew by assumption.
    unfold heap1 in Hnew. rewrite lookup_insert_eq in Hnew. discriminate. }
  assert (Hprog :
    Runtime.bind (Runtime.alloc data) (fun loaded =>
    Runtime.bind (Runtime.contents loaded) (fun elems =>
    Runtime.bind (Runtime.alloc elems) (fun copy =>
    Runtime.bind (Runtime.shuffleArray random copy) (fun shuffled =>
    Runtime.ret (loaded, shuffled))))) (runtime g)
    = Some ((loaded, shuffled),
            Runtime.mk (<[shuffled := order]> heap2)
              (Runtime.random_calls (runtime g) + (length data - 1)))).
  { unfold Runtime.bind at 1, Runtime.alloc at 1. fold heap0 loaded heap1.
    unfold Runtime.bind at 1, Runtime.contents at 1. cbn [Runtime.heap].
    unfold heap1 at 1. rewrite lookup_insert_eq.
    unfold Runtime.bind at 1, Runtime.alloc at 1.
    cbn [Runtime.heap Runtime.random_calls]. fold copy heap2 rt2.
    unfold Runtime.bind at 1. rewrite Hshuffle. reflexivity. }
  set (g0 := set_progressEl (Some (0, length data))
               (set_shuffledActivities shuffled
                  (set_totalActivities (length data)
                     (set_activities loaded
                        (set_runtime
                           (Runtime.mk (<[shuffled := order]> heap2)
                              (Runtime.random_calls (runtime g)
                               + (length data - 1))) g))))).
  assert (Hload : loadActivities random (FetchOk data) g = Some (startGame g0)).
  { cbn [loadActivities].
    rewrite decide_False by (destruct data; [congruence|discriminate]).
    unfold adopt. rewrite Hprog. subst g0. destruct g; reflexivity. }
  assert (Hsh0 : shuffled_of g0 = order).
  { subst g0. destruct g; script. cbn [Runtime.heap].
    rewrite lookup_insert_eq. reflexivity. }
  assert (Hact0 : activities_of g0 = data).
  { subst g0. destruct g; script. cbn [Runtime.heap].
    rewrite lookup_insert_ne by congruence. unfold heap2.
    rewrite lookup_insert_ne by congruence. unfold heap1.
    rewrite lookup_insert_eq. reflexivity. }
  destruct (startGame_view g0) as (Hsame & _).
  pose proof (same_content_shuffled _ _ Hsame) as Hsh.
  pose proof (same_content_activities _ _ Hsame) as Hact.
  assert (Hpos : 0 < length order).
  { rewrite (Permutation_length Hperm). destruct data; [congruence|cbn; lia]. }
  destruct (lookup_lt_is_Some_2 order 0 Hpos) as [first Hfirst].
  assert (Hindex : currentActivityIndex (startGame g0) = 0).
  { unfold startGame.
    rewrite decide_False
      by (rewrite Hact0; destruct data; [congruence|discriminate]).
    apply (displayActivity_in_range 0 g0 first). rewrite Hsh0. exact Hfirst. }
  exists random, (startGame g0).
  split; [exact Hrange|]. split; [exact Hload|].
  split; [congruence|]. split; [congruence|]. split; [exact Hindex|].
  unfold currentItem. rewrite Hsh, Hsh0, Hindex. reflexivity.
Qed.

Lemma every_order_can_be_dealt_witness :
  exists random g',
    (forall k, Runtime.unit_interval (random k))
    /\ loadActivities random (FetchOk sample_activities) sample_page = Some g'
    /\ shuffled_of g' = [answer_phone; pay_bill; plan_week]
    /\ activities_of g' = sample_activities
    /\ currentActivityIndex g' = 0
    /\ currentItem g' = [answer_phone; pay_bill; plan_week] !! 0.
Proof.
  apply (every_order_can_be_dealt sample_activities
           [answer_phone; pay_bill; plan_week] sample_page).
  - discriminate.
  - unfold sample_activities. solve_Permutation.
Defined.

End DealFacts.
